(** * ergonomadic: lookup sets, user masks, passwords and configuration

    A shallow embedding of [irc/client_lookup_set.go], [irc/password.go]
    and [irc/config.go], followed by the properties the specification
    states about them.

    Conventions.  A Go [string] (and the string type [Name]) is a Rocq
    [string], a sequence of one-byte characters.  A Go map is a stdpp
    [gmap]; a nil pointer or nil error is [None].  What the code obtains
    from outside the repository (the SQL driver, the base64 decoder, the
    configuration reader) is either an explicit argument of the function
    that uses it or a model of the library written next to it. *)

From Stdlib Require Import Ascii.
From Stdlib Require String.
From Stdlib Require Import ZArith NArith ZifyNat.
From stdpp Require Import base tactics option list gmap strings.

Local Open Scope stdpp_scope.

(** ** Go values shared by the three files *)

(** [type Name string]: the conversions [Name(s)] and [name.String()] are
    the identity. *)
Abbreviation Name := string (only parsing).

(** An [error] value.  [errors.New] builds one from its text; the other
    constructors are the errors of the libraries the code calls. *)
Inductive error : Type :=
| errors_New (text : string)
| CorruptInputError
| SqlError (text : string).

Definition ErrNickMissing : error := errors_New "nick missing".
Definition ErrNicknameInUse : error := errors_New "nickname in use".
Definition ErrNicknameMismatch : error := errors_New "nickname mismatch".
Definition EmptyPasswordError : error := errors_New "empty password".
Definition InvalidPasswordError : error := errors_New "invalid encrypted password".

(** ** Package [strings] *)

Module strings.

(** [strings.HasPrefix]. *)
Fixpoint HasPrefix (s prefix : string) : bool :=
  match prefix, s with
  | EmptyString, _ => true
  | String _ _, EmptyString => false
  | String p prefix', String c s' => Ascii.eqb c p && HasPrefix s' prefix'
  end.

(** [strings.Contains]: [substr] occurs somewhere in [s]. *)
Fixpoint Contains (s substr : string) : bool :=
  HasPrefix s substr ||
  match s with
  | EmptyString => false
  | String _ s' => Contains s' substr
  end.

(** [strings.Split(s, sep)] for a separator of one byte, the only kind
    the code passes.  The result always has one more element than there
    are separators in [s]; the empty string splits into one empty
    part. *)
Fixpoint Split (s : string) (sep : ascii) : list string :=
  match s with
  | EmptyString => [EmptyString]
  | String c s' =>
      if Ascii.eqb c sep then EmptyString :: Split s' sep
      else match Split s' sep with
           | part :: parts => String c part :: parts
           | [] => [String c EmptyString]
           end
  end.

(** [strings.Join]. *)
Fixpoint Join (elems : list string) (sep : string) : string :=
  match elems with
  | [] => EmptyString
  | [e] => e
  | e :: elems' => e +:+ sep +:+ Join elems' sep
  end.

(** [strings.NewReplacer(old1, new1, ...).Replace] when every [old] is
    a single byte: each byte of the input that is an [old] is replaced
    by its [new]; for a repeated [old] the first pair wins. *)
Fixpoint replacement (oldnew : list (ascii * string)) (c : ascii) : option string :=
  match oldnew with
  | [] => None
  | (old, new) :: oldnew' =>
      if Ascii.eqb c old then Some new else replacement oldnew' c
  end.

Fixpoint Replace (oldnew : list (ascii * string)) (s : string) : string :=
  match s with
  | EmptyString => EmptyString
  | String c s' =>
      match replacement oldnew c with
      | Some new => new +:+ Replace oldnew s'
      | None => String c (Replace oldnew s')
      end
  end.

End strings.

(** ** [client_lookup_set.go]: wildcard helpers *)

Definition likeQuoter : list (ascii * string) :=
  [ ("\"%char, "\\");
    ("%"%char, "\%");
    ("_"%char, "\_");
    ("*"%char, "%");
    ("?"%char, "_") ].

Definition ExpandUserHost (userhost : Name) : Name :=
  let expanded := userhost in
  (* fill in missing wildcards for nicks *)
  let expanded :=
    if negb (strings.Contains expanded "!") then expanded +:+ "!*" else expanded in
  let expanded :=
    if negb (strings.Contains expanded "@") then expanded +:+ "@*" else expanded in
  expanded.

Definition QuoteLike (userhost : Name) : string :=
  strings.Replace likeQuoter userhost.

(** ** Package [unicode/utf8]

    A rune is a Unicode code point.  Go reads a string as UTF-8: where
    the bytes at hand are no encoding of a code point (a stray
    continuation byte, a truncated, overlong or surrogate encoding, a
    value above U+10FFFF), [DecodeRuneInString] answers [RuneError] with
    width 1, so that reading goes on at the next byte. *)

Module utf8.

Definition rune : Type := N.

Definition RuneError : rune := 65533%N.   (* U+FFFD *)
Definition RuneSelf : N := 128%N.

Definition byte (c : ascii) : N := N_of_ascii c.

(** For a first byte above [RuneSelf]: the size of the encoding it
    starts and the range its second byte must lie in; [None] for the
    bytes that start no encoding. *)
Definition first (b0 : N) : option (nat * N * N) :=
  if (b0 <? 194)%N then None                          (* 80..C1 *)
  else if (b0 <? 224)%N then Some (2, 128%N, 191%N)     (* C2..DF *)
  else if (b0 =? 224)%N then Some (3, 160%N, 191%N)     (* E0 *)
  else if (b0 =? 237)%N then Some (3, 128%N, 159%N)     (* ED *)
  else if (b0 <? 240)%N then Some (3, 128%N, 191%N)     (* E1..EC, EE, EF *)
  else if (b0 =? 240)%N then Some (4, 144%N, 191%N)     (* F0 *)
  else if (b0 <? 244)%N then Some (4, 128%N, 191%N)     (* F1..F3 *)
  else if (b0 =? 244)%N then Some (4, 128%N, 143%N)     (* F4 *)
  else None.                                          (* F5..FF *)

(** A continuation byte, [80..BF]. *)
Definition cont (b : N) : bool := (128 <=? b)%N && (b <=? 191)%N.

(** [utf8.DecodeRuneInString]: the first rune of [s] and its width in
    bytes.  On the accepted ranges the differences below are the masks
    and shifts of the Go code: [b0 - 192] is [b0 & 0x1F], [b1 - 128] is
    [b1 & 0x3F], and so on. *)
Definition DecodeRuneInString (s : string) : rune * nat :=
  match s with
  | EmptyString => (RuneError, 0)
  | String c0 s1 =>
      let b0 := byte c0 in
      if (b0 <? RuneSelf)%N then (b0, 1)
      else
        match first b0 with
        | None => (RuneError, 1)
        | Some (size, lo, hi) =>
            match s1 with
            | EmptyString => (RuneError, 1)
            | String c1 s2 =>
                let b1 := byte c1 in
                if (b1 <? lo)%N || (hi <? b1)%N then (RuneError, 1)
                else if size =? 2 then
                  (((b0 - 192) * 64 + (b1 - 128))%N, 2)
                else
                  match s2 with
                  | EmptyString => (RuneError, 1)
                  | String c2 s3 =>
                      let b2 := byte c2 in
                      if negb (cont b2) then (RuneError, 1)
                      else if size =? 3 then
                        (((b0 - 224) * 4096 + (b1 - 128) * 64 + (b2 - 128))%N, 3)
                      else
                        match s3 with
                        | EmptyString => (RuneError, 1)
                        | String c3 _ =>
                            let b3 := byte c3 in
                            if negb (cont b3) then (RuneError, 1)
                            else
                              (((b0 - 240) * 262144 + (b1 - 128) * 4096
                                + (b2 - 128) * 64 + (b3 - 128))%N, 4)
                        end
                  end
            end
        end
  end.

(** The loop [for len(s) > 0 { r, size := DecodeRuneInString(s);
    s = s[size:] }], which is how the regexp package reads both an
    expression and a text.  [steps skip s] leaves out the first [skip]
    bytes of [s], which belong to the rune decoded last, and lists the
    runes of the rest with their widths. *)
Fixpoint steps (skip : nat) (s : string) : list (rune * nat) :=
  match s with
  | EmptyString => []
  | String _ s' =>
      match skip with
      | S skip' => steps skip' s'
      | 0 =>
          let step := DecodeRuneInString s in
          step :: steps (snd step - 1) s'
      end
  end.

Definition runes (s : string) : list rune := (steps 0 s).*1.

(** [utf8.ValidString], which is also the test [checkUTF8] of the regexp
    parser: no step of the loop yields [RuneError] with width 1. *)
Definition ValidString (s : string) : bool :=
  forallb (fun step : rune * nat =>
             negb ((fst step =? RuneError)%N && (snd step =? 1)))
          (steps 0 s).

End utf8.

(** ** Package [regexp]

    The fragment of Go's regular expressions that [setRegexp] can
    produce: literal characters, escaped punctuation, [.], a postfix [*],
    the anchors [^] and [$], and top-level alternation with [|].  There are
    no groups in this fragment, so a [*] always applies to a single atom
    and an expression is an alternation of concatenations of pieces.
    Flags are Go's defaults: [.] does not match a line feed, [^] and [$]
    match only at the beginning and at the end of the text.

    An expression must be valid UTF-8 and is parsed rune by rune; a text
    is matched rune by rune as [utf8.steps] reads it, so that [.] takes
    one code point and a byte that is no UTF-8 counts as [RuneError].
    (How a literal U+FFFD of the expression fares against such a byte
    differs between the matching engines of the package; the model
    follows the machine that steps through the text, and the theorems
    that depend on literals are stated for texts that are valid UTF-8.
    The bound on the memory that a parsed expression may take is not
    modelled.) *)

Module regexp.

(** The characters [regexp.QuoteMeta] escapes. *)
Definition special (c : ascii) : bool :=
  existsb (Ascii.eqb c) (String.list_ascii_of_string "\.+*?()|[]{}^$").

(** [regexp.QuoteMeta]: a backslash before every special character. *)
Fixpoint QuoteMeta (s : string) : string :=
  match s with
  | EmptyString => EmptyString
  | String c s' =>
      if special c then String "\" (String c (QuoteMeta s'))
      else String c (QuoteMeta s')
  end.

Inductive atom : Type :=
| Lit (r : utf8.rune) (* a literal character *)
| AnyCharNotNL        (* [.] *)
| BeginText           (* [^] *)
| EndText.            (* [$] *)

Inductive piece : Type :=
| One (a : atom)
| Star (a : atom).

(** A compiled expression: the alternatives, each a sequence of pieces. *)
Definition Regexp : Type := list (list piece).

(** The rune of an ASCII character. *)
Definition ch (c : ascii) : utf8.rune := utf8.byte c.

Definition is_special (r : utf8.rune) : bool :=
  existsb (fun c => (r =? ch c)%N) (String.list_ascii_of_string "\.+*?()|[]{}^$").

Definition is_alnum (r : utf8.rune) : bool :=
  ((48 <=? r)%N && (r <=? 57)%N) || ((65 <=? r)%N && (r <=? 90)%N) ||
  ((97 <=? r)%N && (r <=? 122)%N).

(** The parser reads the runes of the expression left to right, keeping
    the finished alternatives [alts] and the pieces of the current one
    [cur], both most recent first.  It answers [None] where Go reports a
    syntax error (a [*] without operand, a nested [**], a trailing
    backslash) and also on the syntax outside the fragment (groups,
    classes, counted repetition, [+], [?], escapes of letters and
    digits). *)
Fixpoint parse (s : list utf8.rune) (alts : list (list piece)) (cur : list piece)
  : option Regexp :=
  match s with
  | [] => Some (rev (rev cur :: alts))
  | r :: s' =>
      if (r =? ch "|")%N then parse s' (rev cur :: alts) []
      else if (r =? ch "*")%N then
        match cur with
        | One a :: cur' => parse s' alts (Star a :: cur')
        | _ => None
        end
      else if (r =? ch ".")%N then parse s' alts (One AnyCharNotNL :: cur)
      else if (r =? ch "^")%N then parse s' alts (One BeginText :: cur)
      else if (r =? ch "$")%N then parse s' alts (One EndText :: cur)
      else if (r =? ch "\")%N then
        match s' with
        | d :: s'' =>
            if (d <? utf8.RuneSelf)%N && negb (is_alnum d)
            then parse s'' alts (One (Lit d) :: cur)
            else None
        | [] => None
        end
      else if is_special r then None
      else parse s' alts (One (Lit r) :: cur)
  end.

(** [regexp.Compile]; [None] is the nil [*Regexp] that comes with an
    error.  An expression that is not valid UTF-8 is an error. *)
Definition Compile (expr : string) : option Regexp :=
  if utf8.ValidString expr then parse (utf8.runes expr) [] [] else None.

(** Does atom [a] accept the rune [r]? *)
Definition atom_char (a : atom) (r : utf8.rune) : bool :=
  match a with
  | Lit d => (r =? d)%N
  | AnyCharNotNL => negb (r =? ch "010")%N
  | BeginText | EndText => false
  end.

(** The anchors consume nothing; [pos] is the number of runes before
    the current position and [s] the text from there on. *)
Definition atom_anchor (a : atom) : bool :=
  match a with
  | BeginText | EndText => true
  | Lit _ | AnyCharNotNL => false
  end.

Definition anchor_holds (a : atom) (pos : nat) (s : list utf8.rune) : bool :=
  match a with
  | BeginText => pos =? 0
  | EndText => match s with [] => true | _ :: _ => false end
  | Lit _ | AnyCharNotNL => false
  end.

(** Zero or more runes accepted by [a], then the continuation. *)
Fixpoint match_star (a : atom) (k : nat -> list utf8.rune -> bool)
    (pos : nat) (s : list utf8.rune) : bool :=
  k pos s ||
  match s with
  | [] => false
  | r :: s' => atom_char a r && match_star a k (S pos) s'
  end.

(** [match_here ps pos s]: the pieces [ps] match a prefix of [s], the
    text that starts at position [pos]. *)
Fixpoint match_here (ps : list piece) : nat -> list utf8.rune -> bool :=
  match ps with
  | [] => fun _ _ => true
  | One a :: ps' => fun pos s =>
      if atom_anchor a then anchor_holds a pos s && match_here ps' pos s
      else match s with
           | [] => false
           | r :: s' => atom_char a r && match_here ps' (S pos) s'
           end
  | Star a :: ps' => fun pos s =>
      if atom_anchor a then match_here ps' pos s
      else match_star a (match_here ps') pos s
  end.

(** A match may start at any rune of the text, and at its end. *)
Fixpoint match_from (ps : list piece) (pos : nat) (s : list utf8.rune) : bool :=
  match_here ps pos s ||
  match s with
  | [] => false
  | _ :: s' => match_from ps (S pos) s'
  end.

(** [Regexp.MatchString]: some alternative matches somewhere. *)
Definition MatchString (re : Regexp) (s : string) : bool :=
  existsb (fun alt => match_from alt 0 (utf8.runes s)) re.

End regexp.

(** ** [client_lookup_set.go]: [HasWildcards] *)

(** [regexp.MustCompile] panics when the expression does not compile;
    [None] stands for that panic, which the expression here never
    causes. *)
Definition wildMaskExpr : option regexp.Regexp := regexp.Compile "\*|\?".

Definition HasWildcards (mask : string) : bool :=
  match wildMaskExpr with
  | Some re => regexp.MatchString re mask
  | None => false
  end.

(** ** [client_lookup_set.go]: usermask to regexp *)

Module UserMaskSet.

Record t : Type := mk {
  masks : gmap Name bool;
  regexp : option regexp.Regexp
}.

Definition NewUserMaskSet : t := {| masks := ∅; regexp := None |}.

(** [set.masks[mask]]: a missing key reads as [false]. *)
Definition has (set : t) (mask : Name) : bool :=
  default false (masks set !! mask).

(** The body of the outer loop of [setRegexp]: the expression of one
    mask. *)
Definition maskExpr (mask : Name) : string :=
  let manyParts := strings.Split mask "*" in
  let manyExprs :=
    map (fun manyPart =>
           let oneParts := strings.Split manyPart "?" in
           let oneExprs := map regexp.QuoteMeta oneParts in
           strings.Join oneExprs ".") manyParts in
  strings.Join manyExprs ".*".

(** [order] is the sequence in which [range set.masks] yields the keys;
    Go leaves it unspecified.  The loop stores every expression at
    [maskExprs[index]] and never advances [index]. *)
Definition setRegexp (order : list Name) (set : t) : t :=
  if size (masks set) =? 0 then {| masks := masks set; regexp := None |}
  else
    let maskExprs := replicate (size (masks set)) EmptyString in
    let index := 0 in
    let maskExprs :=
      fold_left (fun maskExprs mask => <[index := maskExpr mask]> maskExprs)
                order maskExprs in
    let expr := "^" +:+ strings.Join maskExprs "|" +:+ "$" in
    {| masks := masks set; regexp := regexp.Compile expr |}.

Definition Add (order : list Name) (mask : Name) (set : t) : t * bool :=
  if has set mask then (set, false)
  else
    let set := {| masks := <[mask := true]> (masks set); regexp := regexp set |} in
    (setRegexp order set, true).

Definition AddAll (order : list Name) (new_masks : list Name) (set : t) : t * bool :=
  let '(m, added) :=
    fold_left (fun '(m, added) mask =>
                 let added :=
                   if negb added && negb (default false (m !! mask))
                   then true else added in
                 (<[mask := true]> m, added))
              new_masks (masks set, false) in
  (setRegexp order {| masks := m; regexp := regexp set |}, added).

Definition Remove (order : list Name) (mask : Name) (set : t) : t * bool :=
  if negb (has set mask) then (set, false)
  else
    let set := {| masks := delete mask (masks set); regexp := regexp set |} in
    (setRegexp order set, true).

Definition Match (set : t) (userhost : Name) : bool :=
  match regexp set with
  | None => false
  | Some re => regexp.MatchString re userhost
  end.

(** [order] enumerates the keys of [m], each once. *)
Definition iteration_of (m : gmap Name bool) (order : list Name) : Prop :=
  order ≡ₚ (map_to_list m).*1.

(** The sets a program can build: starting from [NewUserMaskSet], by
    [Add], [AddAll] and [Remove], whatever order the map iterations
    take. *)
Inductive reachable : t -> Prop :=
| reach_New : reachable NewUserMaskSet
| reach_Add set mask order :
    reachable set ->
    iteration_of (masks (Add order mask set).1) order ->
    reachable (Add order mask set).1
| reach_AddAll set new_masks order :
    reachable set ->
    iteration_of (masks (AddAll order new_masks set).1) order ->
    reachable (AddAll order new_masks set).1
| reach_Remove set mask order :
    reachable set ->
    iteration_of (masks (Remove order mask set).1) order ->
    reachable (Remove order mask set).1.

(** [set.String()]: the masks in the order of the iteration, one per
    slot, joined by spaces.  An assignment to a slot that the slice does
    not have would panic; the list is then left as it is, which
    [String_fills_slots] shows never to happen. *)
Definition String (order : list Name) (set : t) : string :=
  let masks_ := replicate (size (masks set)) EmptyString in
  let index := 0 in
  let '(masks_, index) :=
    fold_left (fun '(masks_, index) mask => (<[index := mask]> masks_, index + 1))
              order (masks_, index) in
  strings.Join masks_ " ".

End UserMaskSet.

(** ** [client_lookup_set.go]: client db and lookup set *)

(** What the lookup set reads through a [*Client].  The [Client] struct,
    its methods and [Name.ToLower] are declared outside the files at hand,
    so they are taken as given: [client] is the type of (non-nil) client
    pointers, compared by identity, and the other fields are what the code
    reads through such a pointer while it adds, removes and looks up. *)
Class ClientModel : Type := {
  client : Type;
  client_eq_dec :: EqDecision client;
  client_countable :: Countable client;
  nick : client -> Name;        (* the field [client.nick] *)
  HasNick : client -> bool;     (* [client.HasNick()] *)
  Nick : client -> Name;        (* [client.Nick()] *)
  UserHost : client -> Name;    (* [client.UserHost()] *)
  ToLower : Name -> Name        (* [name.ToLower()] *)
}.

(** A line written with [Log.error.Println]: its leading text. *)
Abbreviation log := (list string) (only parsing).

Module ClientDB.

(** The table [client (nickname, userhost)], in insertion order. *)
Definition row : Type := string * string.
Definition t : Type := list row.

(** SQLite's [NOCASE] collation folds the 26 upper case letters of
    ASCII and compares the rest byte by byte. *)
Definition fold_ascii (c : ascii) : ascii :=
  let n := nat_of_ascii c in
  if (65 <=? n) && (n <=? 90) then ascii_of_nat (n + 32) else c.

Fixpoint nocase (s : string) : string :=
  match s with
  | EmptyString => EmptyString
  | String c s' => String (fold_ascii c) (nocase s')
  end.

Definition nocase_eq (a b : string) : bool :=
  bool_decide (nocase a = nocase b).

(** [INSERT INTO client (nickname, userhost) VALUES (?, ?)] on the
    schema of [NewClientDB]: [nickname] is [UNIQUE] and so is the index
    [idx_uh] on [userhost], both [COLLATE NOCASE], so the statement is
    refused when either value is already in the table.  (The third
    constraint, [UNIQUE (nickname, userhost) ON CONFLICT REPLACE], can
    only be violated together with the first two, which abort the
    statement.)  [fault] says that the driver fails for a reason of its
    own (the file is locked, full, closed); a failed statement changes
    nothing. *)
Definition exec_insert (fault : bool) (db : t) (nickname userhost : string)
  : t * option error :=
  if fault then (db, Some (SqlError "driver"))
  else if existsb (fun r => nocase_eq r.1 nickname || nocase_eq r.2 userhost) db
  then (db, Some (SqlError "UNIQUE constraint failed"))
  else (db ++ [(nickname, userhost)], None).

(** [DELETE FROM client WHERE nickname = ?]. *)
Definition exec_delete (fault : bool) (db : t) (nickname : string)
  : t * option error :=
  if fault then (db, Some (SqlError "driver"))
  else (filter (fun r => negb (nocase_eq r.1 nickname)) db, None).

Section Ops.
Context `{ClientModel}.

Definition Add (fault : bool) (c : client) (db : t) : t * log :=
  match exec_insert fault db (Nick c) (UserHost c) with
  | (db, Some err) => (db, ["ClientDB.Add:"])
  | (db, None) => (db, [])
  end.

Definition Remove (fault : bool) (c : client) (db : t) : t * log :=
  match exec_delete fault db (Nick c) with
  | (db, Some err) => (db, ["ClientDB.Remove:"])
  | (db, None) => (db, [])
  end.
End Ops.

(** What [rows.Scan(&sqlNickname)] yields for one row, and what
    [db.Query] yields: an error, or the rows that [rows.Next] steps
    through. *)
Inductive scan : Type :=
| ScanOk (sqlNickname : string)
| ScanErr (err : error).

Inductive query : Type :=
| QueryErr (err : error)
| QueryRows (rows : list scan).

(** The answers of the driver to [Query] and to [QueryRow(...).Scan],
    as functions of the statement and of its argument. *)
Record driver : Type := {
  Query : string -> string -> query;
  QueryRow : string -> string -> scan
}.

End ClientDB.

Module ClientLookupSet.
Section Ops.
Context `{ClientModel}.

Record t : Type := mk {
  byNick : gmap Name client;
  db : ClientDB.t
}.

(** The result of a method that returns an [error] and may log. *)
Record outcome : Type := {
  state : t;
  err : option error;
  logged : log
}.

(** [rows0] is what the backing store holds when it is opened:
    [NewClientDB] accepts a table that already exists. *)
Definition NewClientLookupSet (rows0 : ClientDB.t) : t :=
  {| byNick := ∅; db := rows0 |}.

(** [None] is the nil pointer that a missing key reads as. *)
Definition Get (clients : t) (nick : Name) : option client :=
  byNick clients !! ToLower nick.

Definition Add (fault : bool) (c : client) (clients : t) : outcome :=
  if negb (HasNick c) then
    {| state := clients; err := Some ErrNickMissing; logged := [] |}
  else if bool_decide (Get clients (nick c) <> None) then
    {| state := clients; err := Some ErrNicknameInUse; logged := [] |}
  else
    let byNick' := <[ToLower (Nick c) := c]> (byNick clients) in
    let '(db', l) := ClientDB.Add fault c (db clients) in
    {| state := {| byNick := byNick'; db := db' |}; err := None; logged := l |}.

Definition Remove (fault : bool) (c : client) (clients : t) : outcome :=
  if negb (HasNick c) then
    {| state := clients; err := Some ErrNickMissing; logged := [] |}
  else if bool_decide (Get clients (nick c) <> Some c) then
    {| state := clients; err := Some ErrNicknameMismatch; logged := [] |}
  else
    let byNick' := delete (ToLower (nick c)) (byNick clients) in
    let '(db', l) := ClientDB.Remove fault c (db clients) in
    {| state := {| byNick := byNick'; db := db' |}; err := None; logged := l |}.

Definition sqlFindAll : string :=
  "SELECT nickname FROM client WHERE userhost LIKE ? ESCAPE '\'".
Definition sqlFind : string :=
  "SELECT nickname FROM client WHERE userhost LIKE ? ESCAPE '\' LIMIT 1".

(** The loop [for rows.Next() { ... }] of [FindAll], with the set and
    the log built so far. *)
Fixpoint FindAll_rows (clients : t) (rows : list ClientDB.scan)
    (set : gset client) (l : log) : gset client * log :=
  match rows with
  | [] => (set, l)
  | ClientDB.ScanErr _ :: _ => (set, l ++ ["ClientLookupSet.FindAll.Scan:"])
  | ClientDB.ScanOk sqlNickname :: rows' =>
      let nickname := sqlNickname in
      match Get clients nickname with
      | None =>
          FindAll_rows clients rows' set
            (l ++ ["ClientLookupSet.FindAll: missing client:"])
      | Some c => FindAll_rows clients rows' ({[c]} ∪ set) l
      end
  end.

Definition FindAll (d : ClientDB.driver) (clients : t) (userhost : Name)
  : gset client * log :=
  let userhost := ExpandUserHost userhost in
  let set : gset client := ∅ in
  match ClientDB.Query d sqlFindAll (QuoteLike userhost) with
  | ClientDB.QueryErr _ => (set, ["ClientLookupSet.FindAll.Query:"])
  | ClientDB.QueryRows rows => FindAll_rows clients rows set []
  end.

Definition Find (d : ClientDB.driver) (clients : t) (userhost : Name)
  : option client * log :=
  let userhost := ExpandUserHost userhost in
  match ClientDB.QueryRow d sqlFind (QuoteLike userhost) with
  | ClientDB.ScanErr _ => (None, ["ClientLookupSet.Find:"])
  | ClientDB.ScanOk nickname => (Get clients nickname, [])
  end.

(** The states a run can reach: from a new set, by [Add] and by
    [Remove], whether or not the driver fails. *)
Inductive reachable : t -> Prop :=
| reach_New rows0 : reachable (NewClientLookupSet rows0)
| reach_Add clients c fault :
    reachable clients -> reachable (state (Add fault c clients))
| reach_Remove clients c fault :
    reachable clients -> reachable (state (Remove fault c clients)).

(** The same, from an empty store and with every statement of the
    index succeeding (nothing is logged). *)
Inductive reachable_quietly : t -> Prop :=
| quiet_New : reachable_quietly (NewClientLookupSet [])
| quiet_Add clients c fault :
    reachable_quietly clients -> logged (Add fault c clients) = [] ->
    reachable_quietly (state (Add fault c clients))
| quiet_Remove clients c fault :
    reachable_quietly clients -> logged (Remove fault c clients) = [] ->
    reachable_quietly (state (Remove fault c clients)).

(** The two indexes as the specification wants them: a client is in
    the nickname map exactly when the index has a row with its
    nickname. *)
Definition coordinated (clients : t) : Prop :=
  forall c : client,
    (exists key, byNick clients !! key = Some c) <->
    (exists userhost, (Nick c, userhost) ∈ db clients).

(** Every entry of the nickname map sits under the folded nickname of its
    client, and that client has a nickname. *)
Definition keyed (clients : t) : Prop :=
  forall key c,
    byNick clients !! key = Some c ->
    key = ToLower (nick c) /\ HasNick c = true.

(** The index and the nickname map in step: every entry of the map has
    its row, every row names an entry of the map, and no two rows have the
    same nickname up to the case of ASCII letters. *)
Definition in_step (clients : t) : Prop :=
  (forall key c,
     byNick clients !! key = Some c ->
     (Nick c, UserHost c) ∈ db clients) /\
  (forall nickname userhost,
     (nickname, userhost) ∈ db clients ->
     exists c, byNick clients !! ToLower nickname = Some c /\
               Nick c = nickname /\ UserHost c = userhost) /\
  (forall r1 r2 : ClientDB.row,
     r1 ∈ db clients -> r2 ∈ db clients ->
     ClientDB.nocase r1.1 = ClientDB.nocase r2.1 -> r1 = r2).

End Ops.
End ClientLookupSet.

(** ** SQLite: [LIKE] and the two queries of the lookup set

    The operator [LIKE ? ESCAPE '\'] as SQLite evaluates it on two
    texts.  Each text is read up to its first NUL byte, character by
    character; [%] matches any run of characters, [_] any single
    character, the character after a backslash matches itself, and letters
    of ASCII match without regard to their case.  A pattern that ends in a
    lone backslash matches nothing. *)

Module sqlite.

(** [sqlite3Utf8Trans1]: the payload bits of a first byte [C0..FF]. *)
Definition Utf8Trans1 (b : N) : N :=
  if (b <? 224)%N then (b - 192)%N        (* C0..DF *)
  else if (b <? 240)%N then (b - 224)%N   (* E0..EF *)
  else if (b <? 248)%N then (b - 240)%N   (* F0..F7 *)
  else if (b <? 252)%N then (b - 248)%N   (* F8..FB *)
  else if (b <? 254)%N then (b - 252)%N   (* FC, FD *)
  else 0%N.                               (* FE, FF *)

(** The end of [sqlite3Utf8Read]: an overlong encoding of an ASCII
    character, a surrogate, and [FFFE] and [FFFF] are read as [FFFD]. *)
Definition finish (c : N) : N :=
  if (c <? 128)%N
     || ((55296 <=? c)%N && (c <=? 57343)%N)
     || ((65534 <=? c)%N && (c <=? 65535)%N)
  then 65533%N else c.

Definition emit (pending : option N) : list N :=
  match pending with
  | Some c => [finish c]
  | None => []
  end.

(** The characters that [sqlite3Utf8Read] reads from a text, one call
    after the other up to the first NUL byte.  A byte below [C0] is a
    character by itself.  A byte from [C0] on starts a character that
    takes in every byte [80..BF] that follows, six bits each, in a 32-bit
    unsigned integer; [pending] is the character being read so. *)
Fixpoint read (pending : option N) (s : string) : list N :=
  match s with
  | EmptyString => emit pending
  | String ch s' =>
      let b := N_of_ascii ch in
      if (b =? 0)%N then emit pending
      else
        match pending with
        | Some c =>
            if (128 <=? b)%N && (b <? 192)%N
            then read (Some ((c * 64 + (b - 128)) mod 4294967296)%N) s'
            else
              finish c ::
              (if (b <? 192)%N then b :: read None s'
               else read (Some (Utf8Trans1 b)) s')
        | None =>
            if (b <? 192)%N then b :: read None s'
            else read (Some (Utf8Trans1 b)) s'
        end
  end.

Definition chars (s : string) : list N := read None s.

(** [sqlite3Tolower] on a character below 128; other characters have no
    case. *)
Definition fold (c : N) : N :=
  if (65 <=? c)%N && (c <=? 90)%N then (c + 32)%N else c.

(** A character of the pattern that stands for itself against a
    character of the text. *)
Definition eq_nocase (c c2 : N) : bool :=
  (c =? c2)%N || ((c <? 128)%N && (c2 <? 128)%N && (fold c =? fold c2)%N).

(** Any run of characters, then the rest of the pattern. *)
Fixpoint like_all (k : list N -> bool) (s : list N) : bool :=
  k s ||
  match s with
  | [] => false
  | _ :: s' => like_all k s'
  end.

(** [patternCompare] with [%] as [matchAll], [_] as [matchOne] and the
    backslash as escape. *)
Fixpoint patternCompare (pattern : list N) : list N -> bool :=
  match pattern with
  | [] => fun s =>
      match s with [] => true | _ :: _ => false end
  | c :: pattern' =>
      if (c =? 37)%N then like_all (patternCompare pattern')       (* % *)
      else if (c =? 95)%N then fun s =>                            (* _ *)
        match s with
        | [] => false
        | _ :: s' => patternCompare pattern' s'
        end
      else if (c =? 92)%N then                                     (* \ *)
        match pattern' with
        | [] => fun _ => false
        | d :: pattern'' => fun s =>
            match s with
            | [] => false
            | e :: s' => eq_nocase d e && patternCompare pattern'' s'
            end
        end
      else fun s =>
        match s with
        | [] => false
        | e :: s' => eq_nocase c e && patternCompare pattern' s'
        end
  end.

(** [s LIKE pattern ESCAPE '\']. *)
Definition like (pattern s : string) : bool :=
  patternCompare (chars pattern) (chars s).




End sqlite.

(** ** Package [encoding/base64]

    [base64.StdEncoding.DecodeString]: the standard alphabet with [=]
    padding.  Carriage returns and line feeds are ignored; the bytes come
    with [CorruptInputError] when the input is malformed, and are then
    those decoded before the error was met.  (The offset that Go stores
    in the error is left out.) *)

Module base64.

Definition decodeMap (c : ascii) : option nat :=
  let n := nat_of_ascii c in
  if (65 <=? n) && (n <=? 90) then Some (n - 65)
  else if (97 <=? n) && (n <=? 122) then Some (n - 97 + 26)
  else if (48 <=? n) && (n <=? 57) then Some (n - 48 + 52)
  else if n =? 43 then Some 62
  else if n =? 47 then Some 63
  else None.

Definition is_newline (c : ascii) : bool :=
  Ascii.eqb c "010" || Ascii.eqb c "013".

Definition is_pad (c : ascii) : bool := Ascii.eqb c "=".

Definition to_byte (n : nat) : Byte.byte := byte_of_ascii (ascii_of_nat n).

(** The three bytes of a quantum of four 6-bit values. *)
Definition byte0 (v0 v1 : nat) : Byte.byte := to_byte (v0 * 4 + v1 / 16).
Definition byte1 (v1 v2 : nat) : Byte.byte := to_byte ((v1 mod 16) * 16 + v2 / 4).
Definition byte2 (v2 v3 : nat) : Byte.byte := to_byte ((v2 mod 4) * 64 + v3).

Definition is_nil {A} (l : list A) : bool :=
  match l with [] => true | _ :: _ => false end.

(** Quantum after quantum over the input without its line breaks. *)
Fixpoint decode (src : list ascii) : list Byte.byte * option error :=
  match src with
  | [] => ([], None)
  | c0 :: c1 :: c2 :: c3 :: rest =>
      match decodeMap c0, decodeMap c1 with
      | Some v0, Some v1 =>
          match decodeMap c2 with
          | Some v2 =>
              match decodeMap c3 with
              | Some v3 =>
                  let '(bytes, err) := decode rest in
                  (byte0 v0 v1 :: byte1 v1 v2 :: byte2 v2 v3 :: bytes, err)
              | None =>
                  if is_pad c3 then
                    ([byte0 v0 v1; byte1 v1 v2],
                     if is_nil rest then None else Some CorruptInputError)
                  else ([], Some CorruptInputError)
              end
          | None =>
              if is_pad c2 && is_pad c3 then
                ([byte0 v0 v1],
                 if is_nil rest then None else Some CorruptInputError)
              else ([], Some CorruptInputError)
          end
      | _, _ => ([], Some CorruptInputError)
      end
  | _ => ([], Some CorruptInputError)
  end.

Definition DecodeString (s : string) : list Byte.byte * option error :=
  decode (filter (fun c => negb (is_newline c)) (String.list_ascii_of_string s)).

(** [base64.StdEncoding.EncodeToString]: three bytes give four
    characters of the alphabet; a last group of one or two bytes is padded
    with [=]. *)
Definition encodeStd (v : nat) : ascii :=
  if v <? 26 then ascii_of_nat (v + 65)
  else if v <? 52 then ascii_of_nat (v - 26 + 97)
  else if v <? 62 then ascii_of_nat (v - 52 + 48)
  else if v =? 62 then "+"%char
  else "/"%char.

Definition of_byte (b : Byte.byte) : nat := nat_of_ascii (ascii_of_byte b).

Fixpoint encode (src : list Byte.byte) : list ascii :=
  match src with
  | [] => []
  | [b0] =>
      let n0 := of_byte b0 in
      [encodeStd (n0 / 4); encodeStd ((n0 mod 4) * 16); "="%char; "="%char]
  | [b0; b1] =>
      let n0 := of_byte b0 in
      let n1 := of_byte b1 in
      [encodeStd (n0 / 4); encodeStd ((n0 mod 4) * 16 + n1 / 16);
       encodeStd ((n1 mod 16) * 4); "="%char]
  | b0 :: b1 :: b2 :: rest =>
      let n0 := of_byte b0 in
      let n1 := of_byte b1 in
      let n2 := of_byte b2 in
      encodeStd (n0 / 4) :: encodeStd ((n0 mod 4) * 16 + n1 / 16)
      :: encodeStd ((n1 mod 16) * 4 + n2 / 64) :: encodeStd (n2 mod 64)
      :: encode rest
  end.

Definition EncodeToString (src : list Byte.byte) : string :=
  String.string_of_list_ascii (encode src).

End base64.

(** ** [password.go] *)

Section Password.
(** The decoder, [base64.StdEncoding.DecodeString] in the code. *)
Variable DecodeString : string -> list Byte.byte * option error.

(** The result is the pair [(decoded, err)]; a nil slice is [[]]. *)
Definition DecodePassword (encoded : string) : list Byte.byte * option error :=
  if bool_decide (encoded = EmptyString) then ([], None)
  else
    let '(decoded, err) := DecodeString encoded in
    let err := if length decoded <? 60 then Some InvalidPasswordError else err in
    (decoded, err).
End Password.

Section PasswordGen.
(** [bcrypt.GenerateFromPassword(password, cost)]: the hash, which
    depends on a salt drawn at random, or an error. *)
Variable GenerateFromPassword :
  list Byte.byte -> nat -> list Byte.byte * option error.

(** [bcrypt.MinCost]. *)
Definition MinCost : nat := 4.

(** The result is the pair [(encoded, err)]. *)
Definition GenerateEncodedPassword (passwd : string) : string * option error :=
  if bool_decide (passwd = EmptyString) then (EmptyString, Some EmptyPasswordError)
  else
    let '(bcrypted, err) :=
      GenerateFromPassword (String.list_byte_of_string passwd) MinCost in
    match err with
    | Some _ => (EmptyString, err)
    | None => (base64.EncodeToString bcrypted, err)
    end.
End PasswordGen.

(** ** [config.go] *)

Module Config.

Record PassConfig : Type := { Password : string }.

Record SSLListenConfig : Type := { SSLCert : string; SSLKey : string }.

Record ServerSection : Type := {
  PassConfig_ : PassConfig;     (* the embedded [PassConfig] *)
  Database : string;
  Listen : list string;
  Wslisten : string;
  Log : string;
  MOTD : string;
  Name : string
}.

Record t : Type := {
  Server : ServerSection;
  Operator : gmap string PassConfig;
  Theater : gmap string PassConfig;
  SSLListener : gmap string SSLListenConfig
}.

(** [&Config{}]: every field at its zero value. *)
Definition zero : t :=
  {| Server := {| PassConfig_ := {| Password := EmptyString |};
                  Database := EmptyString; Listen := [];
                  Wslisten := EmptyString; Log := EmptyString;
                  MOTD := EmptyString; Name := EmptyString |};
     Operator := ∅; Theater := ∅; SSLListener := ∅ |}.

(** [conf.PasswordBytes()]: [None] stands for the exit of the process
    through [log.Fatal]. *)
Definition PasswordBytes
    (DecodeString : string -> list Byte.byte * option error)
    (conf : PassConfig) : option (list Byte.byte) :=
  match DecodePassword DecodeString (Password conf) with
  | (bytes, None) => Some bytes
  | (_, Some _) => None
  end.

Section Credentials.
(** The decoder of [DecodePassword], and [NewName] and [Name.IsChannel],
    which are declared outside the files at hand. *)
Variable DecodeString : string -> list Byte.byte * option error.
Variable NewName : string -> string.
Variable IsChannel : string -> bool.

(** [conf.Operators()].  [order] lists the keys of [conf.Operator] in
    the order of the iteration; [None] stands for the exit of the process
    through [log.Fatal] in [PasswordBytes]. *)
Definition Operators (order : list string) (conf : t)
  : option (gmap string (list Byte.byte)) :=
  fold_left
    (fun operators name =>
       match operators, Operator conf !! name with
       | Some operators, Some opConf =>
           match PasswordBytes DecodeString opConf with
           | Some bytes => Some (<[NewName name := bytes]> operators)
           | None => None
           end
       | _, _ => operators
       end)
    order (Some ∅).

(** [conf.Theaters()]: the same over [conf.Theater], with a fatal error
    for a name that is not a channel. *)
Definition Theaters (order : list string) (conf : t)
  : option (gmap string (list Byte.byte)) :=
  fold_left
    (fun theaters s =>
       match theaters, Theater conf !! s with
       | Some theaters, Some theaterConf =>
           let name := NewName s in
           if negb (IsChannel name) then None
           else
             match PasswordBytes DecodeString theaterConf with
             | Some bytes => Some (<[name := bytes]> theaters)
             | None => None
             end
       | _, _ => theaters
       end)
    order (Some ∅).
End Credentials.

Section Load.
(** [gcfg.ReadFileInto(config, filename)]: what the reader stores
    into the configuration it is given, and the error it returns. *)
Variable ReadFileInto : t -> string -> t * option error.

(** The result is the pair [(config, err)]. *)
Definition LoadConfig (filename : string) : t * option error :=
  let config := zero in
  let '(config, err) := ReadFileInto config filename in
  match err with
  | Some _ => (config, err)
  | None =>
      if bool_decide (Name (Server config) = EmptyString) then
        (config, Some (errors_New "server.name missing"))
      else if bool_decide (Database (Server config) = EmptyString) then
        (config, Some (errors_New "server.database missing"))
      else if length (Listen (Server config)) =? 0 then
        (config, Some (errors_New "server.listen missing"))
      else (config, err)
  end.
End Load.

End Config.

(** ** The specification's notions

    Definitions that follow the wording of the specification rather than
    the code; the theorems below compare the two. *)

Module Spec.

(** The character [c] occurs in [s]. *)
Definition occurs (c : ascii) (s : string) : Prop :=
  exists before after, s = before +:+ String c after.

(** A mask read as a glob: [*] matches any run of characters, [?]
    matches any single character, every other character matches
    itself. *)
Inductive glob : string -> string -> Prop :=
| glob_end : glob EmptyString EmptyString
| glob_star mask run s :
    glob mask s -> glob (String "*" mask) (run +:+ s)
| glob_one mask c s :
    glob mask s -> glob (String "?" mask) (String c s)
| glob_char mask c s :
    c <> "*"%char -> c <> "?"%char ->
    glob mask s -> glob (String c mask) (String c s).

(** The same glob over characters that are code points rather than
    bytes: the mask and the text are given as sequences of runes. *)
Inductive uglob : list N -> list N -> Prop :=
| uglob_end : uglob [] []
| uglob_star mask run s :
    uglob mask s -> uglob (regexp.ch "*" :: mask) (run ++ s)
| uglob_one mask c s :
    uglob mask s -> uglob (regexp.ch "?" :: mask) (c :: s)
| uglob_char mask c s :
    c <> regexp.ch "*" -> c <> regexp.ch "?" ->
    uglob mask s -> uglob (c :: mask) (c :: s).

(** Modelled from the spec: the case folding of a [Name], which the
    files at hand do not contain.  ASCII letters map to lower case, then
    the characters [{ | } ^] map to [[ \ ] ~]. *)
Definition fold_char (c : ascii) : ascii :=
  let c := ClientDB.fold_ascii c in
  if Ascii.eqb c "{" then "["%char
  else if Ascii.eqb c "|" then "\"%char
  else if Ascii.eqb c "}" then "]"%char
  else if Ascii.eqb c "^" then "~"%char
  else c.

Fixpoint fold (s : string) : string :=
  match s with
  | EmptyString => EmptyString
  | String c s' => String (fold_char c) (fold s')
  end.

(** Some mask of the set matches the userhost, both case-folded. *)
Definition some_mask_matches_folded (set : UserMaskSet.t) (userhost : Name) : Prop :=
  exists mask,
    UserMaskSet.has set mask = true /\
    uglob (utf8.runes (fold mask)) (utf8.runes (fold userhost)).

(** Some mask of the set that is valid UTF-8 matches the userhost as it
    is written, character by character. *)
Definition some_mask_matches (set : UserMaskSet.t) (userhost : Name) : Prop :=
  exists mask,
    UserMaskSet.has set mask = true /\
    utf8.ValidString mask = true /\
    uglob (utf8.runes mask) (utf8.runes userhost).

(** Every mask of the set is valid UTF-8. *)
Definition masks_valid (set : UserMaskSet.t) : Prop :=
  forall mask, UserMaskSet.has set mask = true -> utf8.ValidString mask = true.

Fixpoint no_line_feed (s : string) : bool :=
  match s with
  | EmptyString => true
  | String c s' => negb (Ascii.eqb c "010") && no_line_feed s'
  end.

(** The expression of one mask, anchored, and the union of the
    expressions of all masks, as the specification builds them: split on
    [*], split each piece on [?], escape the fragments, rejoin with [.]
    and [.*], anchor with [^] and [$], and join the masks with [|]. *)
Definition anchored_expr (mask : Name) : string :=
  let pieces := strings.Split mask "*" in
  let exprs :=
    map (fun piece =>
           strings.Join (map regexp.QuoteMeta (strings.Split piece "?")) ".")
        pieces in
  "^" +:+ strings.Join exprs ".*" +:+ "$".

Definition union_expr (order : list Name) : string :=
  strings.Join (map anchored_expr order) "|".

(** What [QuoteLike] does to one character, after the specification. *)
Definition like_char (c : ascii) : string :=
  if Ascii.eqb c "*" then "%"
  else if Ascii.eqb c "?" then "_"
  else if Ascii.eqb c "\" then "\\"
  else if Ascii.eqb c "%" then "\%"
  else if Ascii.eqb c "_" then "\_"
  else String c EmptyString.

Fixpoint like_string (s : string) : string :=
  match s with
  | EmptyString => EmptyString
  | String c s' => like_char c +:+ like_string s'
  end.

End Spec.

(** ** Notions used in the proofs *)

Module Aux.

(** [flat h s]: the concatenation of [h c] over the characters [c] of
    [s]. *)
Fixpoint flat (h : ascii -> string) (s : string) : string :=
  match s with
  | EmptyString => EmptyString
  | String c s' => h c +:+ flat h s'
  end.

(** What [QuoteMeta] writes for one character. *)
Definition quote_char (c : ascii) : string :=
  if regexp.special c then String "\" (String c EmptyString)
  else String c EmptyString.

(** What [setRegexp] writes for one character of a piece between two
    [*], and for one character of a mask. *)
Definition one_expr_char (c : ascii) : string :=
  if Ascii.eqb c "?" then "." else quote_char c.

Definition mask_expr_char (c : ascii) : string :=
  if Ascii.eqb c "*" then ".*" else one_expr_char c.

(** The piece a character of a mask compiles to. *)
Definition piece_of (r : utf8.rune) : regexp.piece :=
  if (r =? regexp.ch "*")%N then regexp.Star regexp.AnyCharNotNL
  else if (r =? regexp.ch "?")%N then regexp.One regexp.AnyCharNotNL
  else regexp.One (regexp.Lit r).

Definition pieces_of (mask : list utf8.rune) : list regexp.piece :=
  map piece_of mask.

(** A byte at or above [utf8.RuneSelf], and a string of such bytes at
    its first [k] places. *)
Definition high (c : ascii) : bool := (utf8.RuneSelf <=? utf8.byte c)%N.

Fixpoint starts_high (k : nat) (s : string) : bool :=
  match k, s with
  | 0, _ => true
  | S k', String c s' => high c && starts_high k' s'
  | S _, EmptyString => false
  end.

(** The bytes of [s] before its first byte below [utf8.RuneSelf], at
    most [k] of them. *)
Fixpoint high_prefix (k : nat) (s : string) : string :=
  match k, s with
  | S k', String c s' =>
      if high c then String c (high_prefix k' s') else EmptyString
  | _, _ => EmptyString
  end.

(** A string of ASCII characters, and the runes it is read as. *)
Definition ascii_only (s : string) : bool :=
  forallb (fun c => negb (high c)) (String.list_ascii_of_string s).

Definition ascii_steps (s : string) : list (utf8.rune * nat) :=
  map (fun c => (utf8.byte c, 1)) (String.list_ascii_of_string s).

(** What becomes of a step of [utf8.steps] when every ASCII character
    [c] of the string is replaced by [h c]. *)
Definition expand (h : ascii -> string) (step : utf8.rune * nat)
  : list (utf8.rune * nat) :=
  if (fst step <? utf8.RuneSelf)%N then ascii_steps (h (ascii_of_N (fst step)))
  else [step].

Definition valid_step (step : utf8.rune * nat) : bool :=
  negb ((fst step =? utf8.RuneError)%N && (snd step =? 1)).

(** The same on runes alone. *)
Definition ascii_runes (s : string) : list utf8.rune :=
  map utf8.byte (String.list_ascii_of_string s).

Definition expand_rune (h : ascii -> string) (r : utf8.rune) : list utf8.rune :=
  if (r <? utf8.RuneSelf)%N then ascii_runes (h (ascii_of_N r)) else [r].

(** No line feed among the runes. *)
Definition no_nl (s : list utf8.rune) : bool :=
  forallb (fun r => negb (r =? regexp.ch "010")%N) s.

(** What [QuoteLike] makes of one character of a mask, as SQLite reads
    the two. *)
Definition quote_like (c : N) : list N :=
  if (c =? 42)%N then [37%N]                   (* * becomes % *)
  else if (c =? 63)%N then [95%N]              (* ? becomes _ *)
  else if (c =? 92)%N then [92%N; 92%N]
  else if (c =? 37)%N then [92%N; 37%N]
  else if (c =? 95)%N then [92%N; 95%N]
  else [c].

(** [k] vertical bars. *)
Fixpoint bars (k : nat) : string :=
  match k with
  | 0 => EmptyString
  | S k' => String "|" (bars k')
  end.

(** The nicknames that [FindAll] scans before the first row that fails
    to scan. *)
Fixpoint scanned (rows : list ClientDB.scan) : list string :=
  match rows with
  | ClientDB.ScanOk sqlNickname :: rows' => sqlNickname :: scanned rows'
  | ClientDB.ScanErr _ :: _ | [] => []
  end.

End Aux.

(** ** Concrete instances used by the examples *)

Module Sample.

(** Four client pointers [0 .. 3] and the nicknames read through them;
    the methods behave as accessors of a client that has a nickname. *)
Definition sample_nick (p : nat) : Name :=
  match p with
  | 0 => "alice"
  | 1 => "Alice"
  | 2 => "bob"
  | 3 => "carol"
  | _ => EmptyString
  end.

Definition clients : ClientModel :=
  {| client := nat;
     nick := sample_nick;
     HasNick := fun p => negb (bool_decide (sample_nick p = EmptyString));
     Nick := fun p =>
       if bool_decide (sample_nick p = EmptyString) then "*" else sample_nick p;
     UserHost := fun p => sample_nick p +:+ "!user@host";
     ToLower := ClientDB.nocase |}.

(** A driver whose query yields one good row and then fails to scan. *)
Definition scan_fails_after_alice : ClientDB.driver :=
  {| ClientDB.Query := fun _ _ =>
       ClientDB.QueryRows [ClientDB.ScanOk "alice"; ClientDB.ScanErr (SqlError "scan")];
     ClientDB.QueryRow := fun _ _ => ClientDB.ScanErr (SqlError "scan") |}.

(** A driver whose query yields a stale nickname and then fails to
    scan. *)
Definition scan_fails_after_dave : ClientDB.driver :=
  {| ClientDB.Query := fun _ _ =>
       ClientDB.QueryRows [ClientDB.ScanOk "dave"; ClientDB.ScanErr (SqlError "scan")];
     ClientDB.QueryRow := fun _ _ => ClientDB.ScanOk "dave" |}.

(** A driver whose query fails. *)
Definition query_fails : ClientDB.driver :=
  {| ClientDB.Query := fun _ _ => ClientDB.QueryErr (SqlError "query");
     ClientDB.QueryRow := fun _ _ => ClientDB.ScanErr (SqlError "query") |}.

(** A driver that returns a stale nickname between two live ones. *)
Definition stale_dave : ClientDB.driver :=
  {| ClientDB.Query := fun _ _ =>
       ClientDB.QueryRows
         [ClientDB.ScanOk "alice"; ClientDB.ScanOk "dave"; ClientDB.ScanOk "bob"];
     ClientDB.QueryRow := fun _ _ => ClientDB.ScanOk "dave" |}.

(** The lookup set after alice and bob were added without failure. *)
Definition alice_and_bob : @ClientLookupSet.t clients :=
  ClientLookupSet.state
    (ClientLookupSet.Add false (2 : @client clients)
       (ClientLookupSet.state
          (ClientLookupSet.Add false (0 : @client clients)
             (ClientLookupSet.NewClientLookupSet [])))).

(** The lookup set after the insertion of alice failed in the driver. *)
Definition alice_unindexed : @ClientLookupSet.t clients :=
  ClientLookupSet.state
    (ClientLookupSet.Add true (0 : @client clients)
       (ClientLookupSet.NewClientLookupSet [])).

(** Mask sets: one mask, the same mask in upper case, two masks. *)
Definition evil : UserMaskSet.t :=
  (UserMaskSet.Add ["*!*@evil.*"] "*!*@evil.*" UserMaskSet.NewUserMaskSet).1.

Definition upper_A : UserMaskSet.t :=
  (UserMaskSet.Add ["A"] "A" UserMaskSet.NewUserMaskSet).1.

Definition a_then_b (order : list Name) : UserMaskSet.t :=
  (UserMaskSet.Add order "b"
     (UserMaskSet.Add ["a"] "a" UserMaskSet.NewUserMaskSet).1).1.

(** The mask [?], and a mask that is a single byte and no UTF-8. *)
Definition one_character : UserMaskSet.t :=
  (UserMaskSet.Add ["?"] "?" UserMaskSet.NewUserMaskSet).1.

Definition not_utf8 : UserMaskSet.t :=
  (UserMaskSet.Add [String "255" EmptyString] (String "255" EmptyString)
     UserMaskSet.NewUserMaskSet).1.

(** The mask [a] and then a byte that is no UTF-8. *)
Definition a_and_byte (order : list Name) : UserMaskSet.t :=
  (UserMaskSet.Add order (String "255" EmptyString)
     (UserMaskSet.Add ["a"] "a" UserMaskSet.NewUserMaskSet).1).1.

(** The same two masks added in the other order. *)
Definition b_then_a (order : list Name) : UserMaskSet.t :=
  (UserMaskSet.Add order "a"
     (UserMaskSet.Add ["b"] "b" UserMaskSet.NewUserMaskSet).1).1.

(** One mask added and removed again. *)
Definition emptied : UserMaskSet.t :=
  (UserMaskSet.Remove [] "*!*@evil.*" evil).1.

(** A credential whose hash has 60 bytes, one with 59, one with 3. *)
Definition credential_60 : string :=
  "JDJhJDA0JGFiY2RlZmdoaWprbG1ub3BxcnN0dXVBQkNERUZHSElKS0xNTk9QUVJTVFVWV1hZWjAxMjM0".

Definition credential_59 : string :=
  "JDJhJDA0JGFiY2RlZmdoaWprbG1ub3BxcnN0dXVBQkNERUZHSElKS0xNTk9QUVJTVFVWV1hZWjAxMjM=".

Definition credential_3 : string := "QUJD".

(** A configuration reader that finds the three required options. *)
Definition good_config : Config.t :=
  {| Config.Server :=
       {| Config.PassConfig_ := {| Config.Password := EmptyString |};
          Config.Database := "ircd.db";
          Config.Listen := ["localhost:6667"];
          Config.Wslisten := EmptyString;
          Config.Log := EmptyString;
          Config.MOTD := EmptyString;
          Config.Name := "irc.example.org" |};
     Config.Operator := ∅; Config.Theater := ∅; Config.SSLListener := ∅ |}.

Definition read_good (config : Config.t) (filename : string)
  : Config.t * option error := (good_config, None).

(** The same file without [server.listen]. *)
Definition no_listen_config : Config.t :=
  {| Config.Server :=
       {| Config.PassConfig_ := {| Config.Password := EmptyString |};
          Config.Database := "ircd.db";
          Config.Listen := [];
          Config.Wslisten := EmptyString;
          Config.Log := EmptyString;
          Config.MOTD := EmptyString;
          Config.Name := "irc.example.org" |};
     Config.Operator := ∅; Config.Theater := ∅; Config.SSLListener := ∅ |}.

Definition read_no_listen (config : Config.t) (filename : string)
  : Config.t * option error := (no_listen_config, None).

(** The hash that [credential_60] encodes, and a bcrypt that always
    generates it. *)
Definition hash_60 : list Byte.byte :=
  String.list_byte_of_string
    "$2a$04$abcdefghijklmnopqrstuuABCDEFGHIJKLMNOPQRSTUVWXYZ01234".

Definition bcrypt_fixed (password : list Byte.byte) (cost : nat)
  : list Byte.byte * option error := (hash_60, None).

(** A configuration with one operator and one theater, and a test for
    channel names by their first character. *)
Definition with_credentials : Config.t :=
  {| Config.Server := Config.Server good_config;
     Config.Operator := {[ "Root" := {| Config.Password := credential_60 |} ]};
     Config.Theater := {[ "#Stage" := {| Config.Password := credential_60 |} ]};
     Config.SSLListener := ∅ |}.

Definition is_channel (name : string) : bool :=
  match name with
  | String c _ => Ascii.eqb c "#" || Ascii.eqb c "&"
  | EmptyString => false
  end.

End Sample.


(** * Properties *)

(** ** Strings *)

Lemma append_cons (c : ascii) (s t : string) :
  String c s +:+ t = String c (s +:+ t).
Proof. reflexivity. Qed.

Lemma append_nil_r (s : string) : s +:+ EmptyString = s.
Proof.
  induction s as [|c s IH]; [done|].
  by rewrite append_cons, IH.
Qed.

Lemma append_assoc (a b c : string) : (a +:+ b) +:+ c = a +:+ (b +:+ c).
Proof.
  induction a as [|x a IH]; [done|].
  by rewrite !append_cons, IH.
Qed.

Lemma HasPrefix_nil (s : string) : strings.HasPrefix s EmptyString = true.
Proof. by destruct s. Qed.

(** Searching for a one-character string is searching for the character. *)
Lemma Contains_char (c : ascii) (s : string) :
  strings.Contains s (String c EmptyString) = true <-> Spec.occurs c s.
Proof.
  induction s as [|d s IH]; simpl.
  - split; [done | intros ([|? ?] & after & Heq); discriminate].
  - rewrite HasPrefix_nil, andb_true_r, orb_true_iff, IH.
    split.
    + intros [Hd | (before & after & ->)].
      * apply Ascii.eqb_eq in Hd as ->. by exists EmptyString, s.
      * by exists (String d before), after.
    + intros ([|x before] & after & Heq); inversion Heq; subst.
      * left. apply Ascii.eqb_refl.
      * right. by exists before, after.
Qed.

Lemma Contains_char_false (c : ascii) (s : string) :
  strings.Contains s (String c EmptyString) = false <-> ~ Spec.occurs c s.
Proof.
  rewrite <- Contains_char.
  destruct (strings.Contains _ _); split; try done.
Qed.

Lemma Contains_char_app (c : ascii) (s t : string) :
  strings.Contains (s +:+ t) (String c EmptyString) =
  strings.Contains s (String c EmptyString) || strings.Contains t (String c EmptyString).
Proof.
  induction s as [|d s IH]; [done|].
  rewrite append_cons. simpl.
  rewrite IH, !HasPrefix_nil, !andb_true_r. by rewrite orb_assoc.
Qed.

(** The second test of [ExpandUserHost] reads the name after the first
    append, which adds no [@]: it is a test on the argument. *)
Lemma ExpandUserHost_cases (userhost : Name) :
  ExpandUserHost userhost =
  userhost
  +:+ (if strings.Contains userhost "!" then "" else "!*")
  +:+ (if strings.Contains userhost "@" then "" else "@*").
Proof.
  unfold ExpandUserHost.
  destruct (strings.Contains userhost "!") eqn:Hbang; simpl.
  - destruct (strings.Contains userhost "@"); simpl.
    + by rewrite append_nil_r.
    + done.
  - rewrite Contains_char_app.
    replace (strings.Contains "!*" "@") with false by reflexivity.
    rewrite orb_false_r.
    destruct (strings.Contains userhost "@"); simpl.
    + by rewrite append_nil_r.
    + by rewrite append_assoc.
Qed.

(** Expanding twice is expanding once. *)
Lemma ExpandUserHost_idempotent (userhost : Name) :
  ExpandUserHost (ExpandUserHost userhost) = ExpandUserHost userhost.
Proof.
  rewrite (ExpandUserHost_cases (ExpandUserHost userhost)).
  assert (strings.Contains (ExpandUserHost userhost) "!" = true) as ->.
  { rewrite ExpandUserHost_cases, !Contains_char_app.
    by destruct (strings.Contains userhost "!"), (strings.Contains userhost "@"). }
  assert (strings.Contains (ExpandUserHost userhost) "@" = true) as ->.
  { rewrite ExpandUserHost_cases, !Contains_char_app.
    by destruct (strings.Contains userhost "!"), (strings.Contains userhost "@"). }
  by rewrite !append_nil_r.
Qed.

(** [QuoteLike] handles each character on its own. *)
Lemma QuoteLike_cons (c : ascii) (s : string) :
  QuoteLike (String c s) = Spec.like_char c +:+ QuoteLike s.
Proof.
  unfold QuoteLike.
  destruct c as [[] [] [] [] [] [] [] []]; reflexivity.
Qed.

(** ** Reading a string as UTF-8 *)

Lemma occurs_cons (c d : ascii) (s : string) :
  Spec.occurs c (String d s) <-> c = d \/ Spec.occurs c s.
Proof.
  split.
  - intros ([|x before] & after & Heq); inversion Heq; subst.
    + by left.
    + right. by exists before, after.
  - intros [->|(before & after & ->)].
    + by exists EmptyString, s.
    + by exists (String d before), after.
Qed.

Lemma high_byte (c : ascii) : Aux.high c = true <-> (128 <= utf8.byte c)%N.
Proof. unfold Aux.high, utf8.RuneSelf. apply N.leb_le. Qed.

Lemma low_byte (c : ascii) : Aux.high c = false <-> (utf8.byte c < 128)%N.
Proof. unfold Aux.high, utf8.RuneSelf. apply N.leb_gt. Qed.

Lemma first_bounds (b0 : N) (size : nat) (lo hi : N) :
  utf8.first b0 = Some (size, lo, hi) ->
  (128 <= lo)%N /\
  (size = 2 /\ (194 <= b0)%N \/
   size = 3 /\ (224 <= b0)%N /\ (b0 = 224%N -> (160 <= lo)%N) \/
   size = 4 /\ (240 <= b0)%N /\ (b0 = 240%N -> (144 <= lo)%N)).
Proof.
  unfold utf8.first.
  repeat match goal with
         | |- context [(?a <? ?b)%N] => destruct (N.ltb_spec a b)
         | |- context [(?a =? ?b)%N] => destruct (N.eqb_spec a b)
         end; intros [= <- <- <-]; split; try lia.
  all: try (left; split; [done | lia]).
  all: try (right; left; split; [done | lia]).
  all: try (right; right; split; [done | lia]).
Qed.

Lemma Decode_low (c0 : ascii) (t : string) :
  Aux.high c0 = false ->
  utf8.DecodeRuneInString (String c0 t) = (utf8.byte c0, 1).
Proof.
  intros Hlow%low_byte. unfold utf8.DecodeRuneInString, utf8.RuneSelf.
  by destruct (N.ltb_spec (utf8.byte c0) 128); [|lia].
Qed.

(** What a step tells about the string: the bytes it takes after the
    first are high bytes, and the rune of a high first byte is no ASCII
    character. *)
Lemma Decode_size (c0 : ascii) (t : string) (r : utf8.rune) (n : nat) :
  utf8.DecodeRuneInString (String c0 t) = (r, n) ->
  1 <= n /\ Aux.starts_high (n - 1) t = true /\
  (Aux.high c0 = true -> (128 <= r)%N).
Proof.
  unfold utf8.DecodeRuneInString, utf8.RuneSelf, utf8.RuneError.
  destruct (N.ltb_spec (utf8.byte c0) 128) as [Hlow|Hhigh].
  { intros [= <- <-]. rewrite high_byte. repeat split; [lia..|]. lia. }
  destruct (utf8.first (utf8.byte c0)) as [[[size lo] hi]|] eqn:Hfirst;
    [|intros [= <- <-]; repeat split; lia].
  apply first_bounds in Hfirst as [Hlo Hsize].
  destruct t as [|c1 t]; [intros [= <- <-]; repeat split; lia|].
  destruct (N.ltb_spec (utf8.byte c1) lo) as [?|Hb1]; simpl;
    [intros [= <- <-]; repeat split; lia|].
  destruct (N.ltb_spec hi (utf8.byte c1)) as [?|Hb1']; simpl;
    [intros [= <- <-]; repeat split; lia|].
  assert (Aux.high c1 = true) as Hc1 by (apply high_byte; lia).
  destruct (Nat.eqb_spec size 2) as [->|Hsize2].
  { intros [= <- <-]. simpl. rewrite Hc1. repeat split; [lia|]. intros _.
    destruct Hsize as [[_ ?]|[[? _]|[? _]]]; [lia | done..]. }
  destruct t as [|c2 t]; [intros [= <- <-]; repeat split; lia|].
  unfold utf8.cont.
  destruct (N.leb_spec 128 (utf8.byte c2)) as [Hb2|?]; simpl;
    [|intros [= <- <-]; repeat split; lia].
  destruct (N.leb_spec (utf8.byte c2) 191) as [Hb2'|?]; simpl;
    [|intros [= <- <-]; repeat split; lia].
  assert (Aux.high c2 = true) as Hc2 by (apply high_byte; lia).
  destruct (Nat.eqb_spec size 3) as [->|Hsize3].
  { intros [= <- <-]. simpl. rewrite Hc1, Hc2. repeat split; [lia|]. intros _.
    destruct Hsize as [[? _]|[[_ [? Hlo']]|[? _]]]; [done| |done].
    destruct (N.eq_dec (utf8.byte c0) 224%N) as [Heq|Hne]; [specialize (Hlo' Heq)|]; lia. }
  destruct t as [|c3 t]; [intros [= <- <-]; repeat split; lia|].
  destruct (N.leb_spec 128 (utf8.byte c3)) as [Hb3|?]; simpl;
    [|intros [= <- <-]; repeat split; lia].
  destruct (N.leb_spec (utf8.byte c3) 191) as [Hb3'|?]; simpl;
    [|intros [= <- <-]; repeat split; lia].
  assert (Aux.high c3 = true) as Hc3 by (apply high_byte; lia).
  intros [= <- <-]. simpl. rewrite Hc1, Hc2, Hc3. repeat split; [lia|]. intros _.
  destruct Hsize as [[? _]|[[? _]|[_ [? Hlo']]]]; [lia..|].
  destruct (N.eq_dec (utf8.byte c0) 240%N) as [Heq|Hne]; [specialize (Hlo' Heq)|]; lia.
Qed.

(** A step looks at the high bytes that follow the first byte, at most
    three of them, and at nothing else. *)
Lemma Decode_prefix (c0 : ascii) (t : string) :
  utf8.DecodeRuneInString (String c0 t)
  = utf8.DecodeRuneInString (String c0 (Aux.high_prefix 3 t)).
Proof.
  unfold utf8.DecodeRuneInString, utf8.RuneSelf.
  destruct (N.ltb_spec (utf8.byte c0) 128) as [Hlow|Hhigh]; [done|].
  destruct (utf8.first (utf8.byte c0)) as [[[size lo] hi]|] eqn:Hfirst; [|done].
  apply first_bounds in Hfirst as [Hlo _].
  assert (forall c, Aux.high c = false -> (utf8.byte c <? lo)%N = true) as Hlt.
  { intros c Hc%low_byte. apply N.ltb_lt. lia. }
  assert (forall c, Aux.high c = false -> utf8.cont (utf8.byte c) = false) as Hcont.
  { intros c Hc%low_byte. unfold utf8.cont.
    destruct (N.leb_spec 128 (utf8.byte c)); [lia | done]. }
  destruct t as [|c1 t]; [done|]. cbn [Aux.high_prefix].
  destruct (Aux.high c1) eqn:Hc1; [|by rewrite Hlt].
  destruct ((utf8.byte c1 <? lo)%N || (hi <? utf8.byte c1)%N); [done|].
  destruct (size =? 2); [done|].
  destruct t as [|c2 t]; [done|]. cbn [Aux.high_prefix].
  destruct (Aux.high c2) eqn:Hc2; [|by rewrite Hcont].
  destruct (negb (utf8.cont (utf8.byte c2))); [done|].
  destruct (size =? 3); [done|].
  destruct t as [|c3 t]; [done|]. cbn [Aux.high_prefix].
  destruct (Aux.high c3) eqn:Hc3; [done|]. by rewrite Hcont.
Qed.

Lemma steps_ascii (a rest : string) :
  Aux.ascii_only a = true ->
  utf8.steps 0 (a +:+ rest) = Aux.ascii_steps a ++ utf8.steps 0 rest.
Proof.
  unfold Aux.ascii_only, Aux.ascii_steps.
  induction a as [|c a IH]; [done|].
  cbn [String.list_ascii_of_string forallb map].
  intros [Hc%negb_true_iff Ha]%andb_true_iff.
  rewrite append_cons. cbn [utf8.steps]. rewrite Decode_low by done.
  cbn [snd app Nat.sub]. by rewrite IH.
Qed.

Lemma high_prefix_cons (k : nat) (c : ascii) (s : string) :
  Aux.high_prefix (S k) (String c s)
  = if Aux.high c then String c (Aux.high_prefix k s) else EmptyString.
Proof. reflexivity. Qed.

Section Flat.
(** A replacement of characters that keeps every high byte and writes
    ASCII characters, at least one, for an ASCII character; and a string
    of ASCII characters that follows. *)
Variable h : ascii -> string.
Variable a : string.
Hypothesis h_high : forall c, Aux.high c = true -> h c = String c EmptyString.
Hypothesis h_low :
  forall c, Aux.high c = false -> Aux.ascii_only (h c) = true /\ h c <> EmptyString.
Hypothesis a_ascii : Aux.ascii_only a = true.

Lemma high_prefix_ascii (k : nat) (b rest : string) :
  Aux.ascii_only b = true -> b <> EmptyString \/ rest = EmptyString ->
  Aux.high_prefix k (b +:+ rest) = EmptyString.
Proof.
  destruct k as [|k]; [by destruct (b +:+ rest)|].
  destruct b as [|c b]; intros Hb [Hne| ->]; try done.
  - rewrite append_cons. simpl.
    apply andb_true_iff in Hb as [->%negb_true_iff _]. done.
  - rewrite append_cons. simpl.
    apply andb_true_iff in Hb as [->%negb_true_iff _]. done.
Qed.

Lemma high_prefix_flat (k : nat) (s : string) :
  Aux.high_prefix k (Aux.flat h s +:+ a) = Aux.high_prefix k s.
Proof.
  revert s. induction k as [|k IH]; intros s; [by destruct (_ +:+ _), s|].
  destruct s as [|c s].
  - replace (Aux.flat h EmptyString +:+ a) with (a +:+ EmptyString)
      by (by rewrite append_nil_r).
    rewrite high_prefix_ascii; [done..|by right].
  - cbn [Aux.flat]. rewrite (high_prefix_cons k c s).
    destruct (Aux.high c) eqn:Hc.
    + rewrite h_high by done. rewrite !append_cons.
      change (EmptyString +:+ ?x) with x.
      by rewrite high_prefix_cons, Hc, IH.
    + destruct (h_low c Hc) as [Hascii Hne].
      rewrite append_assoc. rewrite high_prefix_ascii; [done..|by left].
Qed.

(** The steps of the rewritten string followed by [a] are the steps of
    the string, each ASCII character replaced, followed by the characters
    of [a]. *)
Lemma steps_flat (s : string) (k : nat) :
  Aux.starts_high k s = true ->
  utf8.steps k (Aux.flat h s +:+ a)
  = flat_map (Aux.expand h) (utf8.steps k s) ++ Aux.ascii_steps a.
Proof.
  revert k. induction s as [|c s IH]; intros k Hk.
  - destruct k; [|done].
    replace (Aux.flat h EmptyString +:+ a) with (a +:+ EmptyString)
      by (by rewrite append_nil_r).
    rewrite steps_ascii by done. simpl. by rewrite app_nil_r.
  - destruct k as [|k].
    + destruct (Aux.high c) eqn:Hc.
      * cbn [Aux.flat]. rewrite h_high by done. rewrite !append_cons.
        change (EmptyString +:+ ?x) with x.
        cbn [utf8.steps].
        rewrite (Decode_prefix c (_ +:+ _)), high_prefix_flat, <- Decode_prefix.
        destruct (utf8.DecodeRuneInString (String c s)) as [r n] eqn:Hstep.
        destruct (Decode_size _ _ _ _ Hstep) as (Hn & Hhigh & Hr).
        cbn [snd flat_map]. rewrite IH by done.
        unfold Aux.expand at 2. cbn [fst].
        destruct (N.ltb_spec r utf8.RuneSelf) as [Hlt|_]; [|done].
        specialize (Hr Hc). unfold utf8.RuneSelf in Hlt. lia.
      * cbn [Aux.flat]. destruct (h_low c Hc) as [Hascii _].
        rewrite append_assoc, steps_ascii by done.
        cbn [utf8.steps]. rewrite Decode_low by done.
        cbn [snd flat_map Nat.sub]. rewrite IH by done.
        unfold Aux.expand at 2. cbn [fst].
        apply low_byte in Hc.
        destruct (N.ltb_spec (utf8.byte c) utf8.RuneSelf) as [_|Hge];
          [|unfold utf8.RuneSelf in Hge; lia].
        unfold utf8.byte. rewrite ascii_N_embedding. by rewrite app_assoc.
    + cbn [Aux.starts_high] in Hk. apply andb_true_iff in Hk as [Hc Hk].
      cbn [Aux.flat]. rewrite h_high by done. rewrite !append_cons.
      change (EmptyString +:+ ?x) with x.
      cbn [utf8.steps]. by apply IH.
Qed.

Lemma runes_flat (s : string) :
  utf8.runes (Aux.flat h s +:+ a)
  = flat_map (Aux.expand_rune h) (utf8.runes s) ++ Aux.ascii_runes a.
Proof.
  unfold utf8.runes. rewrite steps_flat by done.
  rewrite fmap_app. f_equal.
  - induction (utf8.steps 0 s) as [|[r n] l IH]; [done|].
    cbn [flat_map]. rewrite fmap_app, fmap_cons, IH. cbn [fst flat_map]. f_equal.
    unfold Aux.expand, Aux.expand_rune. cbn [fst].
    destruct (r <? utf8.RuneSelf)%N; [|done].
    unfold Aux.ascii_steps, Aux.ascii_runes.
    by rewrite <- list_fmap_compose.
  - unfold Aux.ascii_steps, Aux.ascii_runes. by rewrite <- list_fmap_compose.
Qed.

Lemma ascii_steps_valid (b : string) :
  Aux.ascii_only b = true ->
  forallb Aux.valid_step (Aux.ascii_steps b) = true.
Proof.
  unfold Aux.ascii_only, Aux.ascii_steps.
  induction (String.list_ascii_of_string b) as [|c l IH]; [done|].
  cbn [forallb map]. intros [Hc%negb_true_iff%low_byte Hl]%andb_true_iff.
  rewrite IH by done. rewrite andb_true_r.
  unfold Aux.valid_step, utf8.RuneError. cbn [fst snd].
  destruct (N.eqb_spec (utf8.byte c) 65533); [lia | done].
Qed.

Lemma ValidString_flat (s : string) :
  utf8.ValidString (Aux.flat h s +:+ a) = utf8.ValidString s.
Proof.
  unfold utf8.ValidString.
  change (fun step : utf8.rune * nat =>
            negb ((step.1 =? utf8.RuneError)%N && (step.2 =? 1)))
    with Aux.valid_step.
  rewrite steps_flat by done.
  rewrite forallb_app, ascii_steps_valid, andb_true_r by done.
  induction (utf8.steps 0 s) as [|[r n] l IH]; [done|].
  cbn [flat_map forallb]. rewrite forallb_app, IH. f_equal.
  unfold Aux.expand. cbn [fst].
  destruct (N.ltb_spec r utf8.RuneSelf) as [Hlt|Hge].
  - unfold utf8.RuneSelf in Hlt.
    assert (Aux.high (ascii_of_N r) = false) as Hlow.
    { apply low_byte. unfold utf8.byte. rewrite N_ascii_embedding; lia. }
    rewrite ascii_steps_valid by apply h_low, Hlow.
    unfold Aux.valid_step, utf8.RuneError. cbn [fst snd].
    destruct (N.eqb_spec r 65533); [lia | done].
  - simpl. by rewrite andb_true_r.
Qed.

End Flat.

(** An ASCII character occurs in a string exactly when its rune is
    among the runes of the string. *)
Lemma steps_occurs (c : ascii) (s : string) (k : nat) :
  Aux.high c = false ->
  Aux.starts_high k s = true ->
  utf8.byte c ∈ (utf8.steps k s).*1 <-> Spec.occurs c s.
Proof.
  intros Hc. revert k. induction s as [|d s IH]; intros k Hk.
  - destruct k; [|done]. simpl. split.
    + by intros ?%elem_of_nil.
    + intros ([|? ?] & after & Heq); discriminate.
  - rewrite occurs_cons. destruct k as [|k].
    + cbn [utf8.steps].
      destruct (utf8.DecodeRuneInString (String d s)) as [r n] eqn:Hstep.
      destruct (Decode_size _ _ _ _ Hstep) as (Hn & Hhigh & Hr).
      rewrite fmap_cons, elem_of_cons. cbn [fst snd]. rewrite IH by done.
      destruct (Aux.high d) eqn:Hd.
      * specialize (Hr eq_refl). apply low_byte in Hc. split.
        -- intros [Heq|?]; [lia | by right].
        -- intros [->|?]; [apply high_byte in Hd; lia | by right].
      * rewrite Decode_low in Hstep by done. injection Hstep as <- <-.
        split.
        -- intros [Heq|?]; [|by right]. left.
           unfold utf8.byte in Heq.
           by rewrite <- (ascii_N_embedding c), Heq, ascii_N_embedding.
        -- intros [->|?]; [by left | by right].
    + cbn [Aux.starts_high] in Hk. apply andb_true_iff in Hk as [Hd Hk].
      cbn [utf8.steps]. rewrite IH by done. split.
      * by right.
      * intros [->|?]; [congruence | done].
Qed.

Lemma runes_occurs (c : ascii) (s : string) :
  Aux.high c = false ->
  utf8.byte c ∈ utf8.runes s <-> Spec.occurs c s.
Proof. intros Hc. by apply steps_occurs. Qed.

(** ** From a mask to its expression *)

Lemma Split_not_nil (s : string) (sep : ascii) : strings.Split s sep <> [].
Proof.
  destruct s as [|c s]; simpl; [done|].
  destruct (Ascii.eqb c sep); [done|].
  by destruct (strings.Split s sep).
Qed.

Lemma Join_cons (e : string) (elems : list string) (sep : string) :
  elems <> [] ->
  strings.Join (e :: elems) sep = e +:+ sep +:+ strings.Join elems sep.
Proof. by destruct elems. Qed.

(** Splitting at [sep], translating the parts character by character and
    joining them with [e] is translating character by character with [sep]
    sent to [e]. *)
Lemma Join_flat_Split (h : ascii -> string) (sep : ascii) (e s : string) :
  strings.Join (map (Aux.flat h) (strings.Split s sep)) e =
  Aux.flat (fun c => if Ascii.eqb c sep then e else h c) s.
Proof.
  induction s as [|c s IH]; [done|].
  simpl. destruct (Ascii.eqb c sep).
  - rewrite map_cons, Join_cons, IH; [done|].
    pose proof (Split_not_nil s sep). by destruct (strings.Split s sep).
  - rewrite <- IH.
    pose proof (Split_not_nil s sep) as Hne.
    destruct (strings.Split s sep) as [|part parts]; [done|].
    destruct parts as [|part' parts]; simpl.
    + done.
    + by rewrite append_assoc.
Qed.

Lemma QuoteMeta_flat (s : string) :
  regexp.QuoteMeta s = Aux.flat Aux.quote_char s.
Proof.
  induction s as [|c s IH]; [done|].
  simpl. unfold Aux.quote_char. rewrite IH.
  by destruct (regexp.special c).
Qed.

(** The expression of a mask, character by character: [*] gives [.*],
    [?] gives [.], any other character gives itself, escaped when it is
    special. *)
Lemma maskExpr_flat (mask : Name) :
  UserMaskSet.maskExpr mask = Aux.flat Aux.mask_expr_char mask.
Proof.
  unfold UserMaskSet.maskExpr.
  rewrite (map_ext _ (Aux.flat Aux.one_expr_char)).
  - apply Join_flat_Split.
  - intros part. rewrite (map_ext _ (Aux.flat Aux.quote_char)).
    + apply Join_flat_Split.
    + apply QuoteMeta_flat.
Qed.

(** ** Compiling the expression of a mask *)

Lemma mask_expr_char_high (c : ascii) :
  Aux.high c = true -> Aux.mask_expr_char c = String c EmptyString.
Proof. destruct c as [[] [] [] [] [] [] [] []]; intros Hc; done. Qed.

Lemma mask_expr_char_low (c : ascii) :
  Aux.high c = false ->
  Aux.ascii_only (Aux.mask_expr_char c) = true /\
  Aux.mask_expr_char c <> EmptyString.
Proof. destruct c as [[] [] [] [] [] [] [] []]; intros Hc; done. Qed.

Lemma parse_mask_char (c : ascii) (rest : list utf8.rune) alts cur :
  Aux.high c = false ->
  regexp.parse (Aux.ascii_runes (Aux.mask_expr_char c) ++ rest) alts cur =
  regexp.parse rest alts (Aux.piece_of (utf8.byte c) :: cur).
Proof. destruct c as [[] [] [] [] [] [] [] []]; intros Hc; done. Qed.

Lemma parse_mask_rune (r : utf8.rune) (rest : list utf8.rune) alts cur :
  regexp.parse (Aux.expand_rune Aux.mask_expr_char r ++ rest) alts cur =
  regexp.parse rest alts (Aux.piece_of r :: cur).
Proof.
  unfold Aux.expand_rune, utf8.RuneSelf.
  destruct (N.ltb_spec r 128) as [Hlt|Hge].
  - assert (utf8.byte (ascii_of_N r) = r) as Hr.
    { unfold utf8.byte. apply N_ascii_embedding. lia. }
    rewrite parse_mask_char, Hr; [done|].
    apply low_byte. by rewrite Hr.
  - unfold Aux.piece_of. cbn [app regexp.parse]. unfold regexp.is_special.
    cbn [String.list_ascii_of_string existsb].
    change (regexp.ch "|") with 124%N. change (regexp.ch "*") with 42%N.
    change (regexp.ch ".") with 46%N. change (regexp.ch "^") with 94%N.
    change (regexp.ch "$") with 36%N. change (regexp.ch "\") with 92%N.
    change (regexp.ch "+") with 43%N. change (regexp.ch "?") with 63%N.
    change (regexp.ch "(") with 40%N. change (regexp.ch ")") with 41%N.
    change (regexp.ch "[") with 91%N. change (regexp.ch "]") with 93%N.
    change (regexp.ch "{") with 123%N. change (regexp.ch "}") with 125%N.
    repeat match goal with
           | |- context [(r =? ?k)%N] => destruct (N.eqb_spec r k); [lia|]
           end.
    done.
Qed.

Lemma parse_mask (mask rest : list utf8.rune) alts cur :
  regexp.parse (flat_map (Aux.expand_rune Aux.mask_expr_char) mask ++ rest) alts cur =
  regexp.parse rest alts (rev (Aux.pieces_of mask) ++ cur).
Proof.
  revert cur. induction mask as [|r mask IH]; intros cur; [done|].
  cbn [flat_map]. rewrite <- app_assoc, parse_mask_rune, IH.
  unfold Aux.pieces_of. cbn [map rev]. by rewrite <- app_assoc.
Qed.

(** What [setRegexp] compiles for a mask followed by [k] empty
    alternatives: nothing when the mask is not valid UTF-8; otherwise the
    beginning of the text and the pieces of the mask, with the bars and
    the [$] still to be parsed. *)
Lemma Compile_mask_bars (mask : Name) (k : nat) :
  regexp.Compile ("^" +:+ (UserMaskSet.maskExpr mask +:+ Aux.bars k) +:+ "$") =
  if utf8.ValidString mask then
    regexp.parse (Aux.ascii_runes (Aux.bars k +:+ "$")) []
      (rev (Aux.pieces_of (utf8.runes mask)) ++ [regexp.One regexp.BeginText])
  else None.
Proof.
  assert (Aux.ascii_only (Aux.bars k +:+ "$") = true) as Hascii.
  { induction k as [|k IH]; [done|]. simpl. by rewrite append_cons. }
  unfold regexp.Compile. rewrite maskExpr_flat.
  change ("^" +:+ ?s) with (String "^" s). rewrite append_assoc.
  assert (utf8.steps 0 (String "^" (Aux.flat Aux.mask_expr_char mask
                                     +:+ (Aux.bars k +:+ "$")))
          = (regexp.ch "^", 1)
            :: utf8.steps 0 (Aux.flat Aux.mask_expr_char mask
                             +:+ (Aux.bars k +:+ "$"))) as Hsteps by done.
  assert (utf8.ValidString (String "^" (Aux.flat Aux.mask_expr_char mask
                                         +:+ (Aux.bars k +:+ "$")))
          = utf8.ValidString mask) as ->.
  { rewrite <- (ValidString_flat Aux.mask_expr_char (Aux.bars k +:+ "$")
                  mask_expr_char_high mask_expr_char_low Hascii mask).
    unfold utf8.ValidString. by rewrite Hsteps. }
  destruct (utf8.ValidString mask); [|done].
  unfold utf8.runes at 1. rewrite Hsteps, fmap_cons.
  change ((utf8.steps 0 ?s).*1) with (utf8.runes s).
  rewrite (runes_flat Aux.mask_expr_char (Aux.bars k +:+ "$")
             mask_expr_char_high mask_expr_char_low Hascii mask).
  change (regexp.parse ((regexp.ch "^", 1).1 :: ?l) [] [])
    with (regexp.parse l [] [regexp.One regexp.BeginText]).
  apply parse_mask.
Qed.

(** One mask between [^] and [$] compiles when it is valid UTF-8, to a
    single alternative: the beginning of the text, the pieces of the mask,
    the end of the text. *)
Lemma Compile_anchored (mask : Name) :
  regexp.Compile ("^" +:+ UserMaskSet.maskExpr mask +:+ "$") =
  if utf8.ValidString mask then
    Some [regexp.One regexp.BeginText ::
          Aux.pieces_of (utf8.runes mask) ++ [regexp.One regexp.EndText]]
  else None.
Proof.
  pose proof (Compile_mask_bars mask 0) as Hcompile.
  simpl Aux.bars in Hcompile. rewrite append_nil_r in Hcompile.
  rewrite Hcompile. destruct (utf8.ValidString mask); [|done].
  simpl. by rewrite rev_app_distr, rev_involutive.
Qed.

(** ** Matching the expression of a mask *)

Lemma no_line_feed_occurs (s : string) :
  Spec.no_line_feed s = true <-> ~ Spec.occurs "010" s.
Proof.
  induction s as [|c s IH]; cbn [Spec.no_line_feed].
  - split; [|done]. intros _ ([|? ?] & after & Heq); discriminate.
  - rewrite andb_true_iff, negb_true_iff, IH, occurs_cons, Ascii.eqb_neq.
    split.
    + intros [Hc Hs] [<-|?]; done.
    + intros Hnot. split; [intros ->|intros ?]; apply Hnot; [by left | by right].
Qed.

(** A string without line feed has no line feed among its runes. *)
Lemma no_nl_runes (s : string) :
  Spec.no_line_feed s = true -> Aux.no_nl (utf8.runes s) = true.
Proof.
  intros Hnl%no_line_feed_occurs. unfold Aux.no_nl.
  apply forallb_forall. intros r Hr%list_elem_of_In.
  apply negb_true_iff, N.eqb_neq. intros ->.
  apply Hnl. by apply runes_occurs.
Qed.

(** A starred [.] followed by [k] succeeds as soon as [k] succeeds after
    some run of characters without line feed. *)
Lemma match_star_any_intro (k : nat -> list utf8.rune -> bool)
    (run s : list utf8.rune) :
  Aux.no_nl run = true ->
  (forall pos, k pos s = true) ->
  forall pos, regexp.match_star regexp.AnyCharNotNL k pos (run ++ s) = true.
Proof.
  intros Hrun Hk. induction run as [|c run IH]; intros pos.
  - destruct s; simpl; by rewrite Hk.
  - simpl in *.
    apply andb_true_iff in Hrun as [-> Hrun]. simpl.
    rewrite IH by done. apply orb_true_r.
Qed.

Lemma match_star_elim (a : regexp.atom) (k : nat -> list utf8.rune -> bool)
    (pos : nat) (s : list utf8.rune) :
  regexp.match_star a k pos s = true ->
  exists run rest pos', s = run ++ rest /\ k pos' rest = true.
Proof.
  revert pos. induction s as [|c s IH]; intros pos; simpl.
  - rewrite orb_false_r. intros Hk. by exists [], [], pos.
  - intros [Hk | [_ Hrec]%andb_true_iff]%orb_true_iff.
    + by exists [], (c :: s), pos.
    + destruct (IH _ Hrec) as (run & rest & pos' & -> & Hk).
      by exists (c :: run), rest, pos'.
Qed.

Lemma no_nl_app (a b : list utf8.rune) :
  Aux.no_nl (a ++ b) = Aux.no_nl a && Aux.no_nl b.
Proof. apply forallb_app. Qed.

(** The pieces of a mask followed by the end of the text match exactly
    the texts that the mask matches as a glob, wherever they start. *)
Lemma match_here_glob (mask s : list utf8.rune) :
  Spec.uglob mask s ->
  Aux.no_nl s = true ->
  forall pos,
    regexp.match_here (Aux.pieces_of mask ++ [regexp.One regexp.EndText]) pos s = true.
Proof.
  induction 1 as [|mask run s Hglob IH|mask c s Hglob IH|mask c s Hstar Hone Hglob IH];
    intros Hnl pos.
  - done.
  - rewrite no_nl_app in Hnl. apply andb_true_iff in Hnl as [Hrun Hs].
    simpl. by apply match_star_any_intro; [|apply IH].
  - simpl in *. apply andb_true_iff in Hnl as [-> Hs]. simpl. by apply IH.
  - simpl in Hnl. apply andb_true_iff in Hnl as [_ Hs].
    simpl. unfold Aux.piece_of.
    rewrite (proj2 (N.eqb_neq _ _) Hstar), (proj2 (N.eqb_neq _ _) Hone).
    simpl. rewrite N.eqb_refl. simpl. by apply IH.
Qed.

Lemma glob_match_here (mask s : list utf8.rune) (pos : nat) :
  regexp.match_here (Aux.pieces_of mask ++ [regexp.One regexp.EndText]) pos s = true ->
  Spec.uglob mask s.
Proof.
  revert pos s. induction mask as [|c mask IH]; intros pos s; simpl.
  - destruct s; [constructor | done].
  - unfold Aux.piece_of.
    destruct (N.eqb_spec c (regexp.ch "*")) as [->|Hstar];
      [|destruct (N.eqb_spec c (regexp.ch "?")) as [->|Hone]]; simpl.
    + intros (run & rest & pos' & -> & Hk)%match_star_elim.
      constructor. by eapply IH.
    + destruct s as [|d s]; [done|].
      intros [_ Hk]%andb_true_iff. constructor. by eapply IH.
    + destruct s as [|d s]; [done|].
      intros [->%N.eqb_eq Hk]%andb_true_iff. constructor; [done..|].
      by eapply IH.
Qed.

(** An expression that starts with [^] matches only from the start. *)
Lemma match_from_begin_later (ps : list regexp.piece) (pos : nat)
    (s : list utf8.rune) :
  regexp.match_from (regexp.One regexp.BeginText :: ps) (S pos) s = false.
Proof. revert pos. induction s as [|c s IH]; intros pos; simpl; [done | apply IH]. Qed.

Lemma match_from_begin (ps : list regexp.piece) (s : list utf8.rune) :
  regexp.match_from (regexp.One regexp.BeginText :: ps) 0 s = regexp.match_here ps 0 s.
Proof.
  destruct s as [|c s]; simpl.
  - apply orb_false_r.
  - by rewrite match_from_begin_later, orb_false_r.
Qed.

(** Without a line feed in the text, the compiled expression of one mask
    decides glob matching. *)
Lemma MatchString_anchored (mask : list utf8.rune) (s : string) :
  Spec.no_line_feed s = true ->
  regexp.MatchString
    [regexp.One regexp.BeginText ::
     Aux.pieces_of mask ++ [regexp.One regexp.EndText]] s = true
  <-> Spec.uglob mask (utf8.runes s).
Proof.
  intros Hnl%no_nl_runes. unfold regexp.MatchString. simpl.
  rewrite orb_false_r, match_from_begin. split.
  - apply glob_match_here.
  - intros Hglob. by apply match_here_glob.
Qed.

(** An alternative that is [$] alone matches every text, at its end. *)
Lemma match_from_end (pos : nat) (s : list utf8.rune) :
  regexp.match_from [regexp.One regexp.EndText] pos s = true.
Proof.
  revert pos. induction s as [|c s IH]; intros pos; simpl; [done | apply IH].
Qed.

(** ** What [setRegexp] compiles *)

Lemma Join_bars (e : string) (k : nat) :
  strings.Join (e :: replicate k EmptyString) "|" = e +:+ Aux.bars k.
Proof.
  revert e. induction k as [|k IH]; intros e.
  - simpl. by rewrite append_nil_r.
  - change (replicate (S k) EmptyString) with (EmptyString :: replicate k EmptyString).
    rewrite Join_cons by done. by rewrite IH.
Qed.

(** The loop of [setRegexp] writes every expression into the first slot:
    what remains there is the expression of the mask visited last, and
    the other slots keep their initial empty string. *)
Lemma setRegexp_loop (order : list Name) (last : Name) (slot : string)
    (slots : list string) :
  fold_left (fun maskExprs mask => <[0 := UserMaskSet.maskExpr mask]> maskExprs)
            (order ++ [last]) (slot :: slots)
  = UserMaskSet.maskExpr last :: slots.
Proof.
  rewrite fold_left_app. simpl.
  assert (exists slot', fold_left
            (fun maskExprs mask => <[0 := UserMaskSet.maskExpr mask]> maskExprs)
            order (slot :: slots) = slot' :: slots) as [slot' ->]; [|done].
  revert slot. induction order as [|mask order IH]; intros slot; simpl.
  - by exists slot.
  - apply IH.
Qed.

Lemma setRegexp_masks (order : list Name) (set : UserMaskSet.t) :
  UserMaskSet.masks (UserMaskSet.setRegexp order set) = UserMaskSet.masks set.
Proof. unfold UserMaskSet.setRegexp. by destruct (_ =? _). Qed.

Lemma setRegexp_idempotent (order : list Name) (set : UserMaskSet.t) :
  UserMaskSet.setRegexp order (UserMaskSet.setRegexp order set)
  = UserMaskSet.setRegexp order set.
Proof.
  unfold UserMaskSet.setRegexp.
  destruct (size (UserMaskSet.masks set) =? 0) eqn:Hsize; simpl; by rewrite Hsize.
Qed.

Lemma setRegexp_empty (order : list Name) (set : UserMaskSet.t) :
  size (UserMaskSet.masks set) = 0 ->
  UserMaskSet.regexp (UserMaskSet.setRegexp order set) = None.
Proof. intros Hsize. unfold UserMaskSet.setRegexp. by rewrite Hsize. Qed.

(** The expression that [setRegexp] compiles when the iteration ends with
    [last] after [length order] other masks. *)
Lemma setRegexp_expr (order : list Name) (last : Name) (set : UserMaskSet.t) :
  size (UserMaskSet.masks set) = S (length order) ->
  UserMaskSet.regexp (UserMaskSet.setRegexp (order ++ [last]) set)
  = regexp.Compile
      ("^" +:+ (UserMaskSet.maskExpr last +:+ Aux.bars (length order)) +:+ "$").
Proof.
  intros Hsize. unfold UserMaskSet.setRegexp. rewrite Hsize. simpl.
  by rewrite setRegexp_loop, Join_bars.
Qed.

Lemma parse_bars_end (k : nat) alts :
  exists re, regexp.parse (Aux.ascii_runes (Aux.bars k +:+ "$")) alts [] = Some re /\
             In [regexp.One regexp.EndText] re.
Proof.
  revert alts. induction k as [|k IH]; intros alts.
  - eexists. split; [reflexivity|].
    simpl. apply in_or_app. right. by left.
  - apply (IH ([] :: alts)).
Qed.

(** With two masks or more, the last of them valid UTF-8, the compiled
    expression has an alternative that is [$] alone; when the last mask
    is not valid UTF-8 nothing is compiled. *)
Lemma setRegexp_expr_many (order : list Name) (last : Name) (set : UserMaskSet.t) :
  size (UserMaskSet.masks set) = S (length order) ->
  order <> [] ->
  if utf8.ValidString last then
    exists re,
      UserMaskSet.regexp (UserMaskSet.setRegexp (order ++ [last]) set) = Some re /\
      In [regexp.One regexp.EndText] re
  else UserMaskSet.regexp (UserMaskSet.setRegexp (order ++ [last]) set) = None.
Proof.
  intros Hsize Hne. rewrite setRegexp_expr by done.
  rewrite Compile_mask_bars. destruct (utf8.ValidString last); [|done].
  destruct order as [|mask order]; [done|].
  apply parse_bars_end.
Qed.

(** A mask that the iteration visits is a mask of the set. *)
Lemma iteration_has (set : UserMaskSet.t) (order : list Name) (mask : Name) :
  (forall mask b, UserMaskSet.masks set !! mask = Some b -> b = true) ->
  UserMaskSet.iteration_of (UserMaskSet.masks set) order ->
  mask ∈ order -> UserMaskSet.has set mask = true.
Proof.
  intros Htrue Hiter Hin. unfold UserMaskSet.iteration_of in Hiter.
  rewrite Hiter in Hin. apply list_elem_of_fmap in Hin as ([k b] & -> & Hkb).
  apply elem_of_map_to_list in Hkb. simpl.
  unfold UserMaskSet.has. rewrite Hkb. simpl. by eapply Htrue.
Qed.

(** ** Reachable mask sets *)

Lemma iteration_of_length (m : gmap Name bool) (order : list Name) :
  UserMaskSet.iteration_of m order -> length order = size m.
Proof.
  intros Hperm. rewrite (Permutation_length Hperm), length_fmap.
  apply length_map_to_list.
Qed.

Lemma AddAll_loop_all_true (new_masks : list Name) (m m' : gmap Name bool)
    (added added' : bool) :
  (forall mask b, m !! mask = Some b -> b = true) ->
  fold_left (fun '(m, added) mask =>
               let added :=
                 if negb added && negb (default false (m !! mask))
                 then true else added in
               (<[mask := true]> m, added))
            new_masks (m, added) = (m', added') ->
  forall mask b, m' !! mask = Some b -> b = true.
Proof.
  revert m added. induction new_masks as [|mask new_masks IH]; intros m added Hm; simpl.
  - by intros [= <- <-].
  - apply IH. intros k b. rewrite lookup_insert.
    case_decide; [congruence | apply Hm].
Qed.

Lemma reachable_all_true (set : UserMaskSet.t) :
  UserMaskSet.reachable set ->
  forall mask b, UserMaskSet.masks set !! mask = Some b -> b = true.
Proof.
  induction 1 as [|set mask order Hreach IH _|set new_masks order Hreach IH _
                  |set mask order Hreach IH _]; intros k b.
  - simpl. by rewrite lookup_empty.
  - unfold UserMaskSet.Add. destruct (UserMaskSet.has set mask); [apply IH|].
    simpl. rewrite setRegexp_masks. simpl.
    rewrite lookup_insert. case_decide; [congruence | apply IH].
  - unfold UserMaskSet.AddAll.
    destruct (fold_left _ new_masks _) as [m added] eqn:Hfold.
    simpl. rewrite setRegexp_masks. simpl.
    by eapply AddAll_loop_all_true.
  - unfold UserMaskSet.Remove. destruct (negb (UserMaskSet.has set mask)); [apply IH|].
    simpl. rewrite setRegexp_masks. simpl.
    rewrite lookup_delete. case_decide; [done | apply IH].
Qed.

(** In a reachable set the compiled expression is the one [setRegexp]
    computes from the masks, for some order of iteration over them. *)
Lemma reachable_compiled (set : UserMaskSet.t) :
  UserMaskSet.reachable set ->
  exists order,
    UserMaskSet.iteration_of (UserMaskSet.masks set) order /\
    UserMaskSet.setRegexp order set = set.
Proof.
  induction 1 as [|set mask order Hreach IH Hiter|set new_masks order Hreach IH Hiter
                  |set mask order Hreach IH Hiter].
  - exists []. split; [|done].
    unfold UserMaskSet.iteration_of. simpl. by rewrite map_to_list_empty.
  - revert Hiter. unfold UserMaskSet.Add.
    destruct (UserMaskSet.has set mask); [done|]. simpl. intros Hiter.
    exists order. split; [done | apply setRegexp_idempotent].
  - revert Hiter. unfold UserMaskSet.AddAll.
    destruct (fold_left _ new_masks _) as [m added]. simpl. intros Hiter.
    exists order. split; [done | apply setRegexp_idempotent].
  - revert Hiter. unfold UserMaskSet.Remove.
    destruct (negb (UserMaskSet.has set mask)); [done|]. simpl. intros Hiter.
    exists order. split; [done | apply setRegexp_idempotent].
Qed.

(** A reachable set without masks has no compiled expression. *)
Lemma reachable_empty_regexp (set : UserMaskSet.t) :
  UserMaskSet.reachable set ->
  size (UserMaskSet.masks set) = 0 ->
  UserMaskSet.regexp set = None.
Proof.
  intros (order & _ & <-)%reachable_compiled Hsize.
  rewrite setRegexp_masks in Hsize. by apply setRegexp_empty.
Qed.

(** A reachable set with one mask has the anchored expression of that
    mask, and none when the mask is not valid UTF-8. *)
Lemma reachable_single_regexp (set : UserMaskSet.t) :
  UserMaskSet.reachable set ->
  size (UserMaskSet.masks set) = 1 ->
  exists mask,
    (forall mask', UserMaskSet.has set mask' = true <-> mask' = mask) /\
    UserMaskSet.regexp set =
      if utf8.ValidString mask then
        Some [regexp.One regexp.BeginText ::
              Aux.pieces_of (utf8.runes mask) ++ [regexp.One regexp.EndText]]
      else None.
Proof.
  intros Hreach Hsize.
  pose proof (reachable_all_true _ Hreach) as Htrue.
  destruct (reachable_compiled _ Hreach) as (order & Hiter & Heq).
  pose proof (iteration_of_length _ _ Hiter) as Hlen. rewrite Hsize in Hlen.
  destruct order as [|mask [|? ?]]; try done.
  exists mask. split.
  - unfold UserMaskSet.iteration_of in Hiter.
    symmetry in Hiter. apply Permutation_singleton_r in Hiter.
    destruct (map_to_list (UserMaskSet.masks set)) as [|[k b] [|? ?]] eqn:Hlist;
      try done.
    simpl in Hiter. injection Hiter as ->.
    assert (UserMaskSet.masks set = {[mask := b]}) as Hmasks.
    { rewrite <- (list_to_map_to_list (UserMaskSet.masks set)), Hlist. simpl.
      by rewrite insert_empty. }
    assert (b = true) as ->.
    { apply (Htrue mask). rewrite Hmasks. apply lookup_singleton_eq. }
    intros mask'. unfold UserMaskSet.has. rewrite Hmasks.
    rewrite lookup_singleton. case_decide; simpl; split; done.
  - rewrite <- Heq.
    rewrite (setRegexp_expr [] mask) by done. simpl.
    rewrite append_nil_r. apply Compile_anchored.
Qed.

(** To see that every mask of a set is valid UTF-8 it is enough to test
    the keys of the map. *)
Lemma masks_valid_keys (set : UserMaskSet.t) :
  forallb utf8.ValidString (map_to_list (UserMaskSet.masks set)).*1 = true ->
  Spec.masks_valid set.
Proof.
  intros Hall mask Hhas. unfold UserMaskSet.has in Hhas.
  destruct (UserMaskSet.masks set !! mask) as [b|] eqn:Hmask; [|done].
  eapply (proj1 (forallb_forall _ _) Hall), list_elem_of_In, list_elem_of_fmap.
  exists (mask, b). split; [done|]. by apply elem_of_map_to_list.
Qed.

(** X1.  A mask set reached from [NewUserMaskSet] that holds two masks or
    more, all of them valid UTF-8, matches every userhost: the expression
    that [setRegexp] compiles for it ends with an alternative that is [$]
    alone. *)
Theorem reachable_many_match_all (set : UserMaskSet.t) (userhost : Name) :
  UserMaskSet.reachable set ->
  2 <= size (UserMaskSet.masks set) ->
  Spec.masks_valid set ->
  UserMaskSet.Match set userhost = true.
Proof.
  intros Hreach Hsize Hvalid.
  destruct (reachable_compiled _ Hreach) as (order & Hiter & Heq).
  pose proof (iteration_of_length _ _ Hiter) as Hlen.
  destruct (exists_last (l := order)) as (init & last & ->).
  { intros ->. simpl in Hlen. lia. }
  rewrite length_app in Hlen. simpl in Hlen.
  assert (utf8.ValidString last = true) as Hlast.
  { apply Hvalid.
    apply (iteration_has set (init ++ [last])); [|done|].
    - by apply reachable_all_true.
    - apply elem_of_app. right. apply list_elem_of_here. }
  pose proof (setRegexp_expr_many init last set) as Hmany.
  rewrite Hlast in Hmany.
  destruct Hmany as (re & Hre & Hin).
  { lia. }
  { intros ->. simpl in Hlen. lia. }
  rewrite Heq in Hre. unfold UserMaskSet.Match. rewrite Hre.
  unfold regexp.MatchString. apply existsb_exists.
  exists [regexp.One regexp.EndText]. split; [done | apply match_from_end].
Qed.

(** ** The claims on mask sets *)

(** C1, as amended.  For every mask set reached from [NewUserMaskSet] that
    holds at most one mask: a mask that is not valid UTF-8 matches no
    userhost, because its expression does not compile; and for every
    userhost that is valid UTF-8 and holds no line feed, [Match] answers
    true exactly when a mask of the set that is valid UTF-8, read as a
    glob in which [*] matches any run of characters and [?] any single
    character, matches the userhost as it is written: neither the mask
    nor the userhost is case-folded.  A character is a code point. *)
Theorem Match_single_mask_glob (set : UserMaskSet.t) (userhost : Name) :
  UserMaskSet.reachable set ->
  size (UserMaskSet.masks set) <= 1 ->
  ((forall mask, UserMaskSet.has set mask = true -> utf8.ValidString mask = false) ->
   UserMaskSet.Match set userhost = false) /\
  (utf8.ValidString userhost = true ->
   Spec.no_line_feed userhost = true ->
   UserMaskSet.Match set userhost = true <-> Spec.some_mask_matches set userhost).
Proof.
  intros Hreach Hsize.
  destruct (size (UserMaskSet.masks set)) as [|[|n]] eqn:Hn; [| |lia].
  - unfold UserMaskSet.Match. rewrite (reachable_empty_regexp _ Hreach Hn).
    split; [done|]. intros _ _.
    split; [done|]. intros (mask & Hhas & _).
    apply map_size_empty_iff in Hn.
    unfold UserMaskSet.has in Hhas. by rewrite Hn, lookup_empty in Hhas.
  - destruct (reachable_single_regexp _ Hreach Hn) as (mask & Hmask & Hre).
    unfold UserMaskSet.Match. rewrite Hre. split.
    + intros Hinvalid. rewrite (Hinvalid mask); [done|]. by apply Hmask.
    + intros _ Hnl. destruct (utf8.ValidString mask) eqn:Hvalid.
      * rewrite MatchString_anchored by done. split.
        -- intros Hglob. exists mask. split; [by apply Hmask | done].
        -- intros (mask' & ->%Hmask & _ & Hglob). done.
      * split; [done|]. intros (mask' & ->%Hmask & Hvalid' & _). congruence.
Qed.

Lemma Match_single_mask_glob_witness :
  ((forall mask,
      UserMaskSet.has Sample.evil mask = true -> utf8.ValidString mask = false) ->
   UserMaskSet.Match Sample.evil "bob!x@evil.host" = false) /\
  (utf8.ValidString "bob!x@evil.host" = true ->
   Spec.no_line_feed "bob!x@evil.host" = true ->
   UserMaskSet.Match Sample.evil "bob!x@evil.host" = true
   <-> Spec.some_mask_matches Sample.evil "bob!x@evil.host").
Proof.
  apply (Match_single_mask_glob Sample.evil "bob!x@evil.host").
  - apply (UserMaskSet.reach_Add _ _ _ UserMaskSet.reach_New).
    unfold UserMaskSet.iteration_of. vm_compute. reflexivity.
  - vm_compute. lia.
Defined.

(** Characters are code points: the mask [?] matches a userhost of one
    character that takes two bytes; and a mask that is not valid UTF-8
    matches nothing, not even itself. *)
Example Match_beyond_ASCII :
  UserMaskSet.Match Sample.one_character "é" = true /\
  UserMaskSet.Match Sample.one_character "ab" = false /\
  UserMaskSet.regexp Sample.not_utf8 = None /\
  UserMaskSet.Match Sample.not_utf8 (String "255" EmptyString) = false.
Proof. vm_compute. repeat split. Qed.

(** C1, as stated, fails: the set that holds the mask [A] does not match
    the userhost [a], although the mask matches it once both are
    case-folded. *)
Lemma Match_is_case_sensitive :
  UserMaskSet.reachable Sample.upper_A /\
  ~ (UserMaskSet.Match Sample.upper_A "a" = true
     <-> Spec.some_mask_matches_folded Sample.upper_A "a").
Proof.
  split.
  - apply (UserMaskSet.reach_Add _ _ _ UserMaskSet.reach_New).
    unfold UserMaskSet.iteration_of. vm_compute. reflexivity.
  - intros [_ Hmatch].
    assert (UserMaskSet.Match Sample.upper_A "a" = true) as Habs; [|done].
    apply Hmatch. exists "A". split; [reflexivity|].
    change (Spec.uglob [97%N] ([] ++ [97%N])).
    apply Spec.uglob_char; [done..|]. constructor.
Qed.

(** C2, at the set that holds the masks [a] and [b].  Whichever of the
    two the iteration visits last, [setRegexp] compiles the expression of
    that mask alone followed by an empty alternative before the [$], and
    not the union of the anchored expressions of both: the set matches
    [zzz], which the union does not. *)
Theorem setRegexp_two_masks_diverges :
  UserMaskSet.regexp (Sample.a_then_b ["a"; "b"]) = regexp.Compile "^b|$" /\
  UserMaskSet.regexp (Sample.a_then_b ["b"; "a"]) = regexp.Compile "^a|$" /\
  Spec.union_expr ["a"; "b"] = "^a$|^b$" /\
  UserMaskSet.Match (Sample.a_then_b ["a"; "b"]) "zzz" = true /\
  UserMaskSet.Match (Sample.a_then_b ["b"; "a"]) "zzz" = true /\
  option_map (fun re => regexp.MatchString re "zzz")
             (regexp.Compile (Spec.union_expr ["a"; "b"])) = Some false /\
  option_map (fun re => regexp.MatchString re "b")
             (regexp.Compile (Spec.union_expr ["a"; "b"])) = Some true.
Proof. vm_compute. repeat split. Qed.

(** C10.  A mask set reached from [NewUserMaskSet] that holds no mask
    matches no userhost: its compiled expression is nil. *)
Theorem Match_no_masks (set : UserMaskSet.t) (userhost : Name) :
  UserMaskSet.reachable set ->
  UserMaskSet.masks set = ∅ ->
  UserMaskSet.Match set userhost = false.
Proof.
  intros Hreach Hempty. unfold UserMaskSet.Match.
  rewrite (reachable_empty_regexp _ Hreach); [done|].
  by rewrite Hempty, map_size_empty.
Qed.

Lemma Match_no_masks_witness :
  UserMaskSet.Match Sample.emptied "bob!x@evil.host" = false.
Proof.
  apply (Match_no_masks Sample.emptied "bob!x@evil.host").
  - apply UserMaskSet.reach_Remove.
    + apply (UserMaskSet.reach_Add _ _ _ UserMaskSet.reach_New).
      unfold UserMaskSet.iteration_of. vm_compute. reflexivity.
    + unfold UserMaskSet.iteration_of. vm_compute. reflexivity.
  - vm_compute. reflexivity.
Defined.

(** Every mask set with two masks or more, all valid UTF-8, matches every
    userhost; here the set that holds [a] and [b], whichever is visited
    last. *)
Lemma reachable_many_match_all_witness :
  UserMaskSet.Match (Sample.a_then_b ["b"; "a"]) "carol!user@host" = true.
Proof.
  apply (reachable_many_match_all (Sample.a_then_b ["b"; "a"]) "carol!user@host").
  - apply UserMaskSet.reach_Add.
    + apply (UserMaskSet.reach_Add _ _ _ UserMaskSet.reach_New).
      unfold UserMaskSet.iteration_of. vm_compute. reflexivity.
    + unfold UserMaskSet.iteration_of. vm_compute.
      apply Permutation_swap.
  - vm_compute. lia.
  - apply masks_valid_keys. vm_compute. reflexivity.
Defined.

(** ** Lookup targets *)

Lemma FindAll_rows_elem `{ClientModel} (clients : ClientLookupSet.t)
    (rows : list ClientDB.scan) (set : gset client) (l : list string) (c : client) :
  c ∈ (ClientLookupSet.FindAll_rows clients rows set l).1 <->
  c ∈ set \/ exists nickname,
    nickname ∈ Aux.scanned rows /\ ClientLookupSet.Get clients nickname = Some c.
Proof.
  revert set l. induction rows as [|row rows IH]; intros set l;
    [|destruct row as [nickname|e]]; simpl.
  - split; [by left|]. intros [?|(? & []%elem_of_nil & _)]. done.
  - destruct (ClientLookupSet.Get clients nickname) as [c'|] eqn:Hget.
    + rewrite IH. split.
      * intros [[->%elem_of_singleton|Hin]%elem_of_union|(n & Hn & Hc)].
        -- right. exists nickname. split; [apply list_elem_of_here | done].
        -- by left.
        -- right. exists n. split; [by apply list_elem_of_further | done].
      * intros [Hin|(n & Hn & Hc)].
        -- left. apply elem_of_union. by right.
        -- apply elem_of_cons in Hn as [->|Hn].
           ++ left. rewrite Hget in Hc. injection Hc as ->.
              apply elem_of_union. left. by apply elem_of_singleton.
           ++ right. by exists n.
    + rewrite IH. split.
      * intros [Hin|(n & Hn & Hc)]; [by left|].
        right. exists n. split; [by apply list_elem_of_further | done].
      * intros [Hin|(n & Hn & Hc)]; [by left|].
        apply elem_of_cons in Hn as [->|Hn]; [congruence|].
        right. by exists n.
  - split; [by left|]. intros [?|(? & []%elem_of_nil & _)]. done.
Qed.

(** C3.  [ExpandUserHost] returns its argument with [!*] appended when it
    holds no [!] and [@*] appended when it holds no [@], so that a bare
    nick gets [!*@*]; [FindAll] and [Find] expand their argument before
    they query: their answer for a name is their answer for the expanded
    name, it depends on the driver only through the statement issued
    for the quoted expanded name, and it is made of what the driver
    returns for that statement: [FindAll] returns the clients that the
    nickname map holds for the nicknames scanned, [Find] the client it
    holds for the nickname scanned. *)
Theorem ExpandUserHost_appends_wildcards `{ClientModel}
    (d d' : ClientDB.driver) (clients : ClientLookupSet.t) (userhost : Name) :
  (Spec.occurs "!" userhost -> Spec.occurs "@" userhost ->
   ExpandUserHost userhost = userhost) /\
  (~ Spec.occurs "!" userhost -> Spec.occurs "@" userhost ->
   ExpandUserHost userhost = userhost +:+ "!*") /\
  (Spec.occurs "!" userhost -> ~ Spec.occurs "@" userhost ->
   ExpandUserHost userhost = userhost +:+ "@*") /\
  (~ Spec.occurs "!" userhost -> ~ Spec.occurs "@" userhost ->
   ExpandUserHost userhost = userhost +:+ "!*@*") /\
  ExpandUserHost "nick" = "nick!*@*" /\
  ClientLookupSet.FindAll d clients userhost =
    ClientLookupSet.FindAll d clients (ExpandUserHost userhost) /\
  ClientLookupSet.Find d clients userhost =
    ClientLookupSet.Find d clients (ExpandUserHost userhost) /\
  (ClientDB.Query d ClientLookupSet.sqlFindAll (QuoteLike (ExpandUserHost userhost)) =
   ClientDB.Query d' ClientLookupSet.sqlFindAll (QuoteLike (ExpandUserHost userhost)) ->
   ClientLookupSet.FindAll d clients userhost =
   ClientLookupSet.FindAll d' clients userhost) /\
  (ClientDB.QueryRow d ClientLookupSet.sqlFind (QuoteLike (ExpandUserHost userhost)) =
   ClientDB.QueryRow d' ClientLookupSet.sqlFind (QuoteLike (ExpandUserHost userhost)) ->
   ClientLookupSet.Find d clients userhost =
   ClientLookupSet.Find d' clients userhost) /\
  (forall rows,
     ClientDB.Query d ClientLookupSet.sqlFindAll (QuoteLike (ExpandUserHost userhost))
       = ClientDB.QueryRows rows ->
     forall c,
       c ∈ (ClientLookupSet.FindAll d clients userhost).1 <->
       exists nickname,
         nickname ∈ Aux.scanned rows /\
         ClientLookupSet.Get clients nickname = Some c) /\
  (forall nickname,
     ClientDB.QueryRow d ClientLookupSet.sqlFind (QuoteLike (ExpandUserHost userhost))
       = ClientDB.ScanOk nickname ->
     (ClientLookupSet.Find d clients userhost).1 =
     ClientLookupSet.Get clients nickname).
Proof.
  assert (forall rows,
     ClientDB.Query d ClientLookupSet.sqlFindAll (QuoteLike (ExpandUserHost userhost))
       = ClientDB.QueryRows rows ->
     forall c,
       c ∈ (ClientLookupSet.FindAll d clients userhost).1 <->
       exists nickname,
         nickname ∈ Aux.scanned rows /\
         ClientLookupSet.Get clients nickname = Some c) as Hrows.
  { unfold ClientLookupSet.FindAll. intros rows -> c.
    rewrite FindAll_rows_elem. split.
    - by intros [[]%elem_of_empty|].
    - by right. }
  assert (forall nickname,
     ClientDB.QueryRow d ClientLookupSet.sqlFind (QuoteLike (ExpandUserHost userhost))
       = ClientDB.ScanOk nickname ->
     (ClientLookupSet.Find d clients userhost).1 =
     ClientLookupSet.Get clients nickname) as Hrow.
  { unfold ClientLookupSet.Find. by intros nickname ->. }
  rewrite ExpandUserHost_cases.
  split; [|split; [|split; [|split; [|split; [|split; [|split; [|split; [|split; [|split]]]]]]]]];
    [..|rewrite <- !ExpandUserHost_cases; exact Hrows
       |rewrite <- !ExpandUserHost_cases; exact Hrow].
  - intros ->%Contains_char ->%Contains_char. by rewrite !append_nil_r.
  - intros ->%Contains_char_false ->%Contains_char. by rewrite !append_nil_r.
  - intros ->%Contains_char ->%Contains_char_false. done.
  - intros ->%Contains_char_false ->%Contains_char_false. done.
  - done.
  - unfold ClientLookupSet.FindAll.
    rewrite <- !ExpandUserHost_cases. by rewrite ExpandUserHost_idempotent.
  - unfold ClientLookupSet.Find.
    rewrite <- !ExpandUserHost_cases. by rewrite ExpandUserHost_idempotent.
  - rewrite <- !ExpandUserHost_cases. unfold ClientLookupSet.FindAll.
    by intros ->.
  - rewrite <- !ExpandUserHost_cases. unfold ClientLookupSet.Find.
    by intros ->.
Qed.

(** The wildcard for the user goes to the end of the name, also when the
    name has a host. *)
Example ExpandUserHost_nick_at_host :
  ExpandUserHost "nick@host" = "nick@host!*" /\
  ExpandUserHost "nick!user" = "nick!user@*" /\
  ExpandUserHost "nick!user@host" = "nick!user@host".
Proof. repeat split. Qed.

(** C4.  [QuoteLike] rewrites its argument character by character: [*]
    becomes [%], [?] becomes [_], each of [\], [%] and [_] gets a
    backslash in front, and every other character is kept. *)
Theorem QuoteLike_transliterates (userhost : Name) :
  QuoteLike userhost = Spec.like_string userhost.
Proof.
  induction userhost as [|c userhost IH]; [done|].
  rewrite QuoteLike_cons. simpl. by rewrite IH.
Qed.

(** C8, as amended.  When the query of [FindAll] fails the result is the
    empty set, and when the scan of [Find] fails the result is nil.
    Otherwise [FindAll] returns the clients that the nickname map gives for
    the nicknames scanned before the first row that fails to scan (all of
    them when none fails): a nickname that the map does not hold is
    skipped and the rows after it still count.  [Find] returns what the
    map gives for the nickname it scans. *)
Theorem FindAll_Find_on_failure `{ClientModel}
    (d : ClientDB.driver) (clients : ClientLookupSet.t) (userhost : Name) :
  (forall e,
     ClientDB.Query d ClientLookupSet.sqlFindAll (QuoteLike (ExpandUserHost userhost))
       = ClientDB.QueryErr e ->
     (ClientLookupSet.FindAll d clients userhost).1 = ∅) /\
  (forall e,
     ClientDB.QueryRow d ClientLookupSet.sqlFind (QuoteLike (ExpandUserHost userhost))
       = ClientDB.ScanErr e ->
     (ClientLookupSet.Find d clients userhost).1 = None) /\
  (forall rows,
     ClientDB.Query d ClientLookupSet.sqlFindAll (QuoteLike (ExpandUserHost userhost))
       = ClientDB.QueryRows rows ->
     forall c,
       c ∈ (ClientLookupSet.FindAll d clients userhost).1 <->
       exists nickname,
         nickname ∈ Aux.scanned rows /\
         ClientLookupSet.Get clients nickname = Some c) /\
  (forall nickname,
     ClientDB.QueryRow d ClientLookupSet.sqlFind (QuoteLike (ExpandUserHost userhost))
       = ClientDB.ScanOk nickname ->
     (ClientLookupSet.Find d clients userhost).1 =
     ClientLookupSet.Get clients nickname).
Proof.
  unfold ClientLookupSet.FindAll, ClientLookupSet.Find.
  split; [|split; [|split]].
  - by intros e ->.
  - by intros e ->.
  - intros rows -> c. rewrite FindAll_rows_elem. split.
    + by intros [[]%elem_of_empty|].
    + by right.
  - by intros nickname ->.
Qed.

(** C8, as stated, fails: a scan that fails on the second row leaves the
    client of the first row in the result. *)
Lemma FindAll_scan_failure_keeps_clients :
  ClientDB.Query Sample.scan_fails_after_alice ClientLookupSet.sqlFindAll
    (QuoteLike (ExpandUserHost "alice"))
  = ClientDB.QueryRows [ClientDB.ScanOk "alice"; ClientDB.ScanErr (SqlError "scan")] /\
  (@ClientLookupSet.FindAll Sample.clients
     Sample.scan_fails_after_alice Sample.alice_and_bob "alice").1 = {[ 0 ]} /\
  (@ClientLookupSet.FindAll Sample.clients
     Sample.scan_fails_after_alice Sample.alice_and_bob "alice").1 <> ∅.
Proof.
  split; [reflexivity|]. split.
  - vm_compute. reflexivity.
  - vm_compute. discriminate.
Qed.

Lemma FindAll_Find_on_failure_witness :
  (@ClientLookupSet.FindAll Sample.clients
     Sample.query_fails Sample.alice_and_bob "alice").1 = ∅ /\
  (@ClientLookupSet.Find Sample.clients
     Sample.query_fails Sample.alice_and_bob "alice").1 = None /\
  (forall c,
     c ∈ (@ClientLookupSet.FindAll Sample.clients
            Sample.stale_dave Sample.alice_and_bob "*").1 <->
     exists nickname,
       nickname ∈ ["alice"; "dave"; "bob"] /\
       ClientLookupSet.Get Sample.alice_and_bob nickname = Some c).
Proof.
  split; [|split].
  - apply (proj1 (@FindAll_Find_on_failure Sample.clients
                    Sample.query_fails Sample.alice_and_bob "alice")
                 (SqlError "query")).
    reflexivity.
  - apply (proj1 (proj2 (@FindAll_Find_on_failure Sample.clients
                           Sample.query_fails Sample.alice_and_bob "alice"))
                 (SqlError "query")).
    reflexivity.
  - apply (proj1 (proj2 (proj2 (@FindAll_Find_on_failure Sample.clients
                                  Sample.stale_dave Sample.alice_and_bob "*")))
                 [ClientDB.ScanOk "alice"; ClientDB.ScanOk "dave"; ClientDB.ScanOk "bob"]).
    reflexivity.
Defined.

(** A stale row between two live ones: both live clients are returned. *)
Example FindAll_skips_stale :
  (@ClientLookupSet.FindAll Sample.clients
     Sample.stale_dave Sample.alice_and_bob "*").1 = {[ 0; 2 ]}.
Proof. vm_compute. reflexivity. Qed.

(** A stale row and then a row that fails to scan: the first row was
    scanned, and the result is empty all the same. *)
Example FindAll_stale_then_failure :
  (@ClientLookupSet.FindAll Sample.clients
     Sample.scan_fails_after_dave Sample.alice_and_bob "*").1 = ∅ /\
  (@ClientLookupSet.Find Sample.clients
     Sample.scan_fails_after_dave Sample.alice_and_bob "*").1 = None.
Proof. vm_compute. split; reflexivity. Qed.

(** ** Passwords and configuration *)

(** C5, as amended.  For every credential other than the empty string,
    [DecodePassword] returns what the decoder decoded, with an error
    whenever that is shorter than 60 bytes; it returns no error only when
    the decoder reported none and decoded at least 60 bytes. *)
Theorem DecodePassword_rejects_short
    (DecodeString : string -> list Byte.byte * option error) (encoded : string) :
  encoded <> EmptyString ->
  (DecodePassword DecodeString encoded).1 = (DecodeString encoded).1 /\
  (length (DecodeString encoded).1 < 60 ->
   (DecodePassword DecodeString encoded).2 = Some InvalidPasswordError) /\
  (60 <= length (DecodeString encoded).1 ->
   (DecodePassword DecodeString encoded).2 = (DecodeString encoded).2) /\
  ((DecodePassword DecodeString encoded).2 = None ->
   60 <= length (DecodeString encoded).1 /\ (DecodeString encoded).2 = None).
Proof.
  intros Hne. unfold DecodePassword.
  rewrite bool_decide_eq_false_2 by done.
  destruct (DecodeString encoded) as [decoded err]. simpl.
  destruct (Nat.ltb_spec (length decoded) 60) as [Hlt|Hge].
  - repeat split; try done; lia.
  - repeat split; try done; lia.
Qed.

Lemma DecodePassword_rejects_short_witness :
  (DecodePassword base64.DecodeString Sample.credential_59).1
    = (base64.DecodeString Sample.credential_59).1 /\
  (length (base64.DecodeString Sample.credential_59).1 < 60 ->
   (DecodePassword base64.DecodeString Sample.credential_59).2
     = Some InvalidPasswordError) /\
  (60 <= length (base64.DecodeString Sample.credential_59).1 ->
   (DecodePassword base64.DecodeString Sample.credential_59).2
     = (base64.DecodeString Sample.credential_59).2) /\
  ((DecodePassword base64.DecodeString Sample.credential_59).2 = None ->
   60 <= length (base64.DecodeString Sample.credential_59).1 /\
   (base64.DecodeString Sample.credential_59).2 = None).
Proof.
  apply (DecodePassword_rejects_short base64.DecodeString Sample.credential_59).
  discriminate.
Defined.

(** C5, as stated, fails: the empty credential decodes to no byte at all
    and is returned without error. *)
Lemma DecodePassword_accepts_empty :
  ~ (length (base64.DecodeString EmptyString).1 < 60 ->
     (DecodePassword base64.DecodeString EmptyString).2 <> None).
Proof. intros Hclaim. apply Hclaim; [simpl; lia | reflexivity]. Qed.

Example DecodePassword_lengths :
  (DecodePassword base64.DecodeString Sample.credential_60).2 = None /\
  length (DecodePassword base64.DecodeString Sample.credential_60).1 = 60 /\
  (DecodePassword base64.DecodeString Sample.credential_59).2
    = Some InvalidPasswordError /\
  (DecodePassword base64.DecodeString Sample.credential_3)
    = ([Byte.x41; Byte.x42; Byte.x43], Some InvalidPasswordError) /\
  Config.PasswordBytes base64.DecodeString
    {| Config.Password := Sample.credential_3 |} = None.
Proof. vm_compute. repeat split. Qed.

(** C9.  When the reader has parsed the file, [LoadConfig] returns an
    error if [server.name] is empty, if [server.database] is empty or if
    [server.listen] is empty, and returns the configuration without error
    if none of the three is. *)
Theorem LoadConfig_required_options
    (ReadFileInto : Config.t -> string -> Config.t * option error)
    (filename : string) (config : Config.t) :
  ReadFileInto Config.zero filename = (config, None) ->
  (Config.Name (Config.Server config) = EmptyString \/
   Config.Database (Config.Server config) = EmptyString \/
   Config.Listen (Config.Server config) = [] ->
   exists e, Config.LoadConfig ReadFileInto filename = (config, Some e)) /\
  (Config.Name (Config.Server config) <> EmptyString ->
   Config.Database (Config.Server config) <> EmptyString ->
   Config.Listen (Config.Server config) <> [] ->
   Config.LoadConfig ReadFileInto filename = (config, None)).
Proof.
  intros Hread. unfold Config.LoadConfig. rewrite Hread.
  destruct (Config.Listen (Config.Server config)) as [|addr addrs] eqn:Hlisten; simpl.
  - split; [|done]. intros _. repeat case_bool_decide; eauto.
  - split.
    + intros [Hname|[Hdb|?]]; [| |done].
      * rewrite bool_decide_eq_true_2 by done. eauto.
      * case_bool_decide; [eauto|]. rewrite bool_decide_eq_true_2 by done. eauto.
    + intros Hname Hdb _. by rewrite !bool_decide_eq_false_2 by done.
Qed.

Lemma LoadConfig_required_options_witness :
  (Config.Name (Config.Server Sample.good_config) = EmptyString \/
   Config.Database (Config.Server Sample.good_config) = EmptyString \/
   Config.Listen (Config.Server Sample.good_config) = [] ->
   exists e, Config.LoadConfig Sample.read_good "ircd.conf" = (Sample.good_config, Some e)) /\
  (Config.Name (Config.Server Sample.good_config) <> EmptyString ->
   Config.Database (Config.Server Sample.good_config) <> EmptyString ->
   Config.Listen (Config.Server Sample.good_config) <> [] ->
   Config.LoadConfig Sample.read_good "ircd.conf" = (Sample.good_config, None)).
Proof.
  apply (LoadConfig_required_options Sample.read_good "ircd.conf" Sample.good_config).
  reflexivity.
Defined.

Example LoadConfig_samples :
  Config.LoadConfig Sample.read_good "ircd.conf" = (Sample.good_config, None) /\
  Config.LoadConfig Sample.read_no_listen "ircd.conf"
    = (Sample.no_listen_config, Some (errors_New "server.listen missing")).
Proof. vm_compute. split; reflexivity. Qed.

(** ** The lookup set and its index *)

Section LookupSet.
Context `{ClientModel}.

(** A client that has a nickname reports it through [Nick()]. *)
Hypothesis Nick_nick : forall c : client, HasNick c = true -> Nick c = nick c.

(** The two outcomes of [Add]: refused with the set as it was, or the
    client stored under its folded nickname and handed to the index. *)
Lemma Add_outcome (fault : bool) (c : client) (clients : ClientLookupSet.t) :
  (ClientLookupSet.state (ClientLookupSet.Add fault c clients) = clients /\
   ClientLookupSet.err (ClientLookupSet.Add fault c clients) <> None /\
   ClientLookupSet.logged (ClientLookupSet.Add fault c clients) = []) \/
  (HasNick c = true /\
   ClientLookupSet.Get clients (nick c) = None /\
   ClientLookupSet.err (ClientLookupSet.Add fault c clients) = None /\
   ClientLookupSet.byNick (ClientLookupSet.state (ClientLookupSet.Add fault c clients))
     = <[ToLower (nick c) := c]> (ClientLookupSet.byNick clients) /\
   ClientLookupSet.db (ClientLookupSet.state (ClientLookupSet.Add fault c clients))
     = (ClientDB.Add fault c (ClientLookupSet.db clients)).1 /\
   ClientLookupSet.logged (ClientLookupSet.Add fault c clients)
     = (ClientDB.Add fault c (ClientLookupSet.db clients)).2).
Proof.
  unfold ClientLookupSet.Add.
  destruct (HasNick c) eqn:Hhas; simpl; [|by left].
  case_bool_decide as Hget; [by left|].
  right. destruct (ClientDB.Add fault c _) as [db' l]. simpl.
  rewrite (Nick_nick c Hhas). repeat split; try done.
Qed.

(** The two outcomes of [Remove]. *)
Lemma Remove_outcome (fault : bool) (c : client) (clients : ClientLookupSet.t) :
  (ClientLookupSet.state (ClientLookupSet.Remove fault c clients) = clients /\
   ClientLookupSet.err (ClientLookupSet.Remove fault c clients) <> None /\
   ClientLookupSet.logged (ClientLookupSet.Remove fault c clients) = []) \/
  (HasNick c = true /\
   ClientLookupSet.Get clients (nick c) = Some c /\
   ClientLookupSet.err (ClientLookupSet.Remove fault c clients) = None /\
   ClientLookupSet.byNick (ClientLookupSet.state (ClientLookupSet.Remove fault c clients))
     = delete (ToLower (nick c)) (ClientLookupSet.byNick clients) /\
   ClientLookupSet.db (ClientLookupSet.state (ClientLookupSet.Remove fault c clients))
     = (ClientDB.Remove fault c (ClientLookupSet.db clients)).1 /\
   ClientLookupSet.logged (ClientLookupSet.Remove fault c clients)
     = (ClientDB.Remove fault c (ClientLookupSet.db clients)).2).
Proof.
  unfold ClientLookupSet.Remove.
  destruct (HasNick c) eqn:Hhas; simpl; [|by left].
  case_bool_decide as Hget; [by left|].
  right. destruct (ClientDB.Remove fault c _) as [db' l]. simpl.
  repeat split; try done.
Qed.

Lemma Add_keyed (fault : bool) (c : client) (clients : ClientLookupSet.t) :
  ClientLookupSet.keyed clients -> ClientLookupSet.keyed (ClientLookupSet.state (ClientLookupSet.Add fault c clients)).
Proof.
  intros Hkeyed.
  destruct (Add_outcome fault c clients)
    as [(-> & _)|(Hhas & Hget & _ & Hmap & _)]; [done|].
  intros key c'. rewrite Hmap, lookup_insert.
  case_decide as Hkey; [|apply Hkeyed].
  intros [= <-]. by subst key.
Qed.

Lemma Remove_keyed (fault : bool) (c : client) (clients : ClientLookupSet.t) :
  ClientLookupSet.keyed clients -> ClientLookupSet.keyed (ClientLookupSet.state (ClientLookupSet.Remove fault c clients)).
Proof.
  intros Hkeyed.
  destruct (Remove_outcome fault c clients)
    as [(-> & _)|(Hhas & Hget & _ & Hmap & _)]; [done|].
  intros key c'. rewrite Hmap, lookup_delete.
  case_decide; [done | apply Hkeyed].
Qed.

Lemma reachable_keyed (clients : ClientLookupSet.t) :
  ClientLookupSet.reachable clients -> ClientLookupSet.keyed clients.
Proof.
  induction 1 as [rows0|clients c fault _ IH|clients c fault _ IH].
  - intros key c. simpl. by rewrite lookup_empty.
  - by apply Add_keyed.
  - by apply Remove_keyed.
Qed.

(** [Add] refuses a client whose folded nickname is mapped. *)
Lemma Add_in_use (fault : bool) (c : client) (clients : ClientLookupSet.t) :
  HasNick c = true ->
  ClientLookupSet.Get clients (nick c) <> None ->
  ClientLookupSet.Add fault c clients
  = {| ClientLookupSet.state := clients;
       ClientLookupSet.err := Some ErrNicknameInUse;
       ClientLookupSet.logged := [] |}.
Proof.
  intros Hhas Hget. unfold ClientLookupSet.Add.
  rewrite Hhas. simpl. by rewrite bool_decide_eq_true_2.
Qed.

(** C6.  In every state that [Add] and [Remove] can reach from a new
    lookup set, two entries of the nickname map whose clients have the
    same folded nickname are the same entry; and [Add] of a client whose
    folded nickname is mapped returns [ErrNicknameInUse] and leaves the
    set as it was (a client without nickname is refused as well, with
    [ErrNickMissing]). *)
Theorem nick_unique (clients : ClientLookupSet.t) :
  ClientLookupSet.reachable clients ->
  (forall key1 key2 c1 c2,
     ClientLookupSet.byNick clients !! key1 = Some c1 ->
     ClientLookupSet.byNick clients !! key2 = Some c2 ->
     ToLower (nick c1) = ToLower (nick c2) ->
     key1 = key2 /\ c1 = c2) /\
  (forall fault c,
     HasNick c = true ->
     ClientLookupSet.Get clients (nick c) <> None ->
     ClientLookupSet.Add fault c clients
     = {| ClientLookupSet.state := clients;
          ClientLookupSet.err := Some ErrNicknameInUse;
          ClientLookupSet.logged := [] |}) /\
  (forall fault c,
     ClientLookupSet.Get clients (nick c) <> None ->
     ClientLookupSet.state (ClientLookupSet.Add fault c clients) = clients /\
     ClientLookupSet.err (ClientLookupSet.Add fault c clients) <> None).
Proof.
  intros Hkeyed%reachable_keyed. split; [|split].
  - intros key1 key2 c1 c2 H1 H2 Hfold.
    destruct (Hkeyed _ _ H1) as [Hk1 _], (Hkeyed _ _ H2) as [Hk2 _].
    assert (key1 = key2) as <- by congruence.
    split; [done | congruence].
  - intros fault c. apply Add_in_use.
  - intros fault c Hget.
    destruct (Add_outcome fault c clients) as [(? & ? & _)|(_ & Hnone & _)]; [done|].
    by destruct Hget.
Qed.

(** An insertion that logs nothing has appended its row, and no row had
    its nickname. *)
Lemma ClientDB_Add_quiet (fault : bool) (c : client) (db : ClientDB.t) :
  (ClientDB.Add fault c db).2 = [] ->
  (ClientDB.Add fault c db).1 = db ++ [(Nick c, UserHost c)] /\
  forall r, r ∈ db -> ClientDB.nocase r.1 <> ClientDB.nocase (Nick c).
Proof.
  unfold ClientDB.Add, ClientDB.exec_insert.
  destruct fault; [done|].
  destruct (existsb (fun r => ClientDB.nocase_eq r.1 (Nick c)
                              || ClientDB.nocase_eq r.2 (UserHost c)) db) eqn:Hex;
    [done|].
  simpl. intros _. split; [done|].
  intros r Hr Heq.
  assert (existsb (fun r => ClientDB.nocase_eq r.1 (Nick c)
                            || ClientDB.nocase_eq r.2 (UserHost c)) db = true)
    as Habs; [|congruence].
  apply existsb_exists. exists r. split; [by apply list_elem_of_In|].
  apply orb_true_iff. left. unfold ClientDB.nocase_eq. by apply bool_decide_eq_true.
Qed.

(** A deletion that logs nothing has removed the rows of the nickname,
    and those only. *)
Lemma ClientDB_Remove_quiet (fault : bool) (c : client) (db : ClientDB.t) :
  (ClientDB.Remove fault c db).2 = [] ->
  forall r, r ∈ (ClientDB.Remove fault c db).1 <->
            r ∈ db /\ ClientDB.nocase r.1 <> ClientDB.nocase (Nick c).
Proof.
  unfold ClientDB.Remove, ClientDB.exec_delete.
  destruct fault; [done|]. simpl. intros _ r.
  rewrite list_elem_of_filter. unfold ClientDB.nocase_eq.
  rewrite negb_True, bool_decide_spec. tauto.
Qed.

Lemma Add_in_step (fault : bool) (c : client) (clients : ClientLookupSet.t) :
  ClientLookupSet.keyed clients -> ClientLookupSet.in_step clients ->
  ClientLookupSet.logged (ClientLookupSet.Add fault c clients) = [] ->
  ClientLookupSet.in_step (ClientLookupSet.state (ClientLookupSet.Add fault c clients)).
Proof.
  intros Hkeyed (Hrows & Hentries & Hdistinct) Hquiet.
  destruct (Add_outcome fault c clients)
    as [(-> & _)|(Hhas & Hget & _ & Hmap & Hdb & Hlog)]; [done|].
  rewrite Hlog in Hquiet.
  destruct (ClientDB_Add_quiet _ _ _ Hquiet) as [Hadd Hfresh].
  unfold ClientLookupSet.in_step. rewrite Hmap, Hdb, Hadd. split; [|split].
  - intros key c'. rewrite lookup_insert, elem_of_app, list_elem_of_singleton.
    case_decide.
    + intros [= <-]. by right.
    + intros Hc'. left. by eapply Hrows.
  - intros nickname userhost.
    rewrite elem_of_app, list_elem_of_singleton.
    intros [Hold|[= -> ->]].
    + destruct (Hentries _ _ Hold) as (c' & Hc' & Hn & Hu).
      exists c'. rewrite lookup_insert_ne; [done|].
      intros Hkey. unfold ClientLookupSet.Get in Hget. congruence.
    + exists c. rewrite (Nick_nick c Hhas), lookup_insert_eq. done.
  - intros r1 r2. rewrite !elem_of_app, !list_elem_of_singleton.
    intros [H1| ->] [H2| ->] Heq; simpl in *.
    + by apply Hdistinct.
    + by destruct (Hfresh _ H1).
    + by destruct (Hfresh _ H2).
    + done.
Qed.

Lemma Remove_in_step (fault : bool) (c : client) (clients : ClientLookupSet.t) :
  ClientLookupSet.keyed clients -> ClientLookupSet.in_step clients ->
  ClientLookupSet.logged (ClientLookupSet.Remove fault c clients) = [] ->
  ClientLookupSet.in_step (ClientLookupSet.state (ClientLookupSet.Remove fault c clients)).
Proof.
  intros Hkeyed (Hrows & Hentries & Hdistinct) Hquiet.
  destruct (Remove_outcome fault c clients)
    as [(-> & _)|(Hhas & Hget & _ & Hmap & Hdb & Hlog)]; [done|].
  rewrite Hlog in Hquiet.
  pose proof (ClientDB_Remove_quiet _ _ _ Hquiet) as Hdel.
  unfold ClientLookupSet.Get in Hget.
  unfold ClientLookupSet.in_step. rewrite Hmap, Hdb. split; [|split].
  - intros key c'. rewrite lookup_delete. case_decide as Hkey; [done|].
    intros Hc'. apply Hdel. split; [by eapply Hrows|]. simpl. intros Hcase.
    apply Hkey.
    destruct (Hkeyed _ _ Hc') as [-> Hhas'].
    assert ((Nick c', UserHost c') = (Nick c, UserHost c)) as [= Hnick _].
    { apply Hdistinct; [by eapply Hrows | by eapply Hrows | done]. }
    rewrite <- (Nick_nick c Hhas), <- (Nick_nick c' Hhas'). by rewrite Hnick.
  - intros nickname userhost [Hold Hcase]%Hdel. simpl in Hcase.
    destruct (Hentries _ _ Hold) as (c' & Hc' & Hn & Hu).
    exists c'. rewrite lookup_delete_ne; [done|].
    intros Hkey. rewrite <- Hkey, Hget in Hc'. injection Hc' as <-.
    by subst nickname.
  - intros r1 r2 [H1 _]%Hdel [H2 _]%Hdel. by apply Hdistinct.
Qed.

(** C7, as amended.  In every state reached from a new lookup set over
    an empty index by calls of [Add] and [Remove] in which no statement of
    the index failed, every client of the nickname map has its row
    (nickname, userhost) in the index, and every row of the index names a
    client of the nickname map with that nickname and userhost. *)
Theorem indexes_in_step (clients : ClientLookupSet.t) :
  ClientLookupSet.reachable_quietly clients ->
  (forall key c,
     ClientLookupSet.byNick clients !! key = Some c ->
     (Nick c, UserHost c) ∈ ClientLookupSet.db clients) /\
  (forall nickname userhost,
     (nickname, userhost) ∈ ClientLookupSet.db clients ->
     exists c, ClientLookupSet.byNick clients !! ToLower nickname = Some c /\
               Nick c = nickname /\ UserHost c = userhost).
Proof.
  intros Hreach.
  assert (ClientLookupSet.keyed clients /\ ClientLookupSet.in_step clients) as [_ (Hrows & Hentries & _)]; [|done].
  induction Hreach as [|clients c fault _ [Hkeyed Hstep] Hquiet
                       |clients c fault _ [Hkeyed Hstep] Hquiet].
  - split.
    + intros key c. simpl. by rewrite lookup_empty.
    + split; [|split]; simpl.
      * intros key c. by rewrite lookup_empty.
      * by intros nickname userhost ?%elem_of_nil.
      * by intros r1 r2 ?%elem_of_nil.
  - split; [by apply Add_keyed | by apply Add_in_step].
  - split; [by apply Remove_keyed | by apply Remove_in_step].
Qed.

End LookupSet.

(** The sample clients report their nickname through [Nick()]. *)
Lemma Sample_Nick_nick (c : @client Sample.clients) :
  @HasNick Sample.clients c = true -> @Nick Sample.clients c = @nick Sample.clients c.
Proof.
  simpl. by destruct (bool_decide (Sample.sample_nick c = EmptyString)).
Qed.

Lemma alice_and_bob_reachable :
  ClientLookupSet.reachable Sample.alice_and_bob.
Proof. do 2 apply ClientLookupSet.reach_Add. apply ClientLookupSet.reach_New. Qed.

(** Alice and bob are registered; a client whose nickname is [Alice] is
    refused, and the two entries have different folded nicknames. *)
Lemma nick_unique_witness :
  (forall key1 key2 c1 c2,
     ClientLookupSet.byNick Sample.alice_and_bob !! key1 = Some c1 ->
     ClientLookupSet.byNick Sample.alice_and_bob !! key2 = Some c2 ->
     @ToLower Sample.clients (@nick Sample.clients c1)
       = @ToLower Sample.clients (@nick Sample.clients c2) ->
     key1 = key2 /\ c1 = c2) /\
  (forall fault c,
     @HasNick Sample.clients c = true ->
     ClientLookupSet.Get Sample.alice_and_bob (@nick Sample.clients c) <> None ->
     ClientLookupSet.Add fault c Sample.alice_and_bob
     = {| ClientLookupSet.state := Sample.alice_and_bob;
          ClientLookupSet.err := Some ErrNicknameInUse;
          ClientLookupSet.logged := [] |}) /\
  (forall fault c,
     ClientLookupSet.Get Sample.alice_and_bob (@nick Sample.clients c) <> None ->
     ClientLookupSet.state (ClientLookupSet.Add fault c Sample.alice_and_bob)
       = Sample.alice_and_bob /\
     ClientLookupSet.err (ClientLookupSet.Add fault c Sample.alice_and_bob) <> None).
Proof.
  apply (@nick_unique Sample.clients Sample_Nick_nick Sample.alice_and_bob).
  do 2 apply ClientLookupSet.reach_Add. apply ClientLookupSet.reach_New.
Defined.

Example Add_Alice_refused :
  @ClientLookupSet.Add Sample.clients false 1 Sample.alice_and_bob
  = {| ClientLookupSet.state := Sample.alice_and_bob;
       ClientLookupSet.err := Some ErrNicknameInUse;
       ClientLookupSet.logged := [] |}.
Proof.
  apply (@Add_in_use Sample.clients).
  - reflexivity.
  - vm_compute. discriminate.
Qed.

Lemma indexes_in_step_witness :
  (forall key c,
     ClientLookupSet.byNick Sample.alice_and_bob !! key = Some c ->
     (@Nick Sample.clients c, @UserHost Sample.clients c)
       ∈ ClientLookupSet.db Sample.alice_and_bob) /\
  (forall nickname userhost,
     (nickname, userhost) ∈ ClientLookupSet.db Sample.alice_and_bob ->
     exists c,
       ClientLookupSet.byNick Sample.alice_and_bob !! @ToLower Sample.clients nickname
         = Some c /\
       @Nick Sample.clients c = nickname /\ @UserHost Sample.clients c = userhost).
Proof.
  apply (@indexes_in_step Sample.clients Sample_Nick_nick Sample.alice_and_bob).
  apply ClientLookupSet.quiet_Add.
  - apply ClientLookupSet.quiet_Add.
    + apply ClientLookupSet.quiet_New.
    + vm_compute. reflexivity.
  - vm_compute. reflexivity.
Defined.

Example alice_and_bob_rows :
  ClientLookupSet.db Sample.alice_and_bob
  = [("alice", "alice!user@host"); ("bob", "bob!user@host")].
Proof. vm_compute. reflexivity. Qed.

(** C7, as stated, fails: when the insertion into the index fails,
    [ClientDB.Add] logs the error and [Add] succeeds all the same, so alice
    is in the nickname map and the index has no row for her. *)
Lemma failed_insert_breaks_coordination :
  ClientLookupSet.reachable Sample.alice_unindexed /\
  ClientLookupSet.err
    (@ClientLookupSet.Add Sample.clients true 0 (ClientLookupSet.NewClientLookupSet []))
  = None /\
  ClientLookupSet.logged
    (@ClientLookupSet.Add Sample.clients true 0 (ClientLookupSet.NewClientLookupSet []))
  = ["ClientDB.Add:"] /\
  ~ ClientLookupSet.coordinated Sample.alice_unindexed.
Proof.
  split; [|split; [|split]].
  - apply ClientLookupSet.reach_Add, ClientLookupSet.reach_New.
  - reflexivity.
  - reflexivity.
  - intros Hco. destruct (Hco (0 : @client Sample.clients)) as [Hrow _].
    destruct Hrow as [userhost Hin].
    + exists "alice". vm_compute. reflexivity.
    + vm_compute in Hin. by apply elem_of_nil in Hin.
Qed.

(** * More of the code *)

(** ** Membership in a mask set *)

Lemma AddAll_loop (new_masks : list Name) (m m' : gmap Name bool)
    (added added' : bool) :
  fold_left (fun '(m, added) mask =>
               let added :=
                 if negb added && negb (default false (m !! mask))
                 then true else added in
               (<[mask := true]> m, added))
            new_masks (m, added) = (m', added') ->
  added' = added || existsb (fun mask => negb (default false (m !! mask))) new_masks /\
  forall mask, default false (m' !! mask)
               = default false (m !! mask) || bool_decide (mask ∈ new_masks).
Proof.
  revert m added. induction new_masks as [|x new_masks IH]; intros m added Hfold;
    simpl in Hfold.
  - injection Hfold as <- <-. split; [by rewrite orb_false_r|].
    intros mask. rewrite bool_decide_eq_false_2; [by rewrite orb_false_r|].
    apply not_elem_of_nil.
  - destruct (IH _ _ Hfold) as [-> Hhas]. split.
    + cbn [existsb].
      destruct (default false (m !! x)) eqn:Hx.
      * rewrite andb_false_r. simpl.
        f_equal. clear -Hx. induction new_masks as [|y l IHl]; [done|].
        simpl. rewrite IHl, lookup_insert.
        case_decide as Hxy; [|done]. subst y. simpl. by rewrite Hx.
      * by destruct added.
    + intros mask. rewrite Hhas, lookup_insert.
      case_decide as Hx; simpl.
      * subst mask. rewrite (bool_decide_eq_true_2 (x ∈ x :: new_masks));
          [|apply list_elem_of_here]. by rewrite !orb_true_r.
      * destruct (decide (mask ∈ new_masks)) as [Hin|Hnin].
        -- rewrite !bool_decide_eq_true_2; [done| |done].
           by apply list_elem_of_further.
        -- rewrite !bool_decide_eq_false_2; [done| |done].
           intros [?|?]%elem_of_cons; done.
Qed.

(** X2.  [Add] returns true exactly when the mask was not in the set, and
    the set then holds the mask besides what it held; [Remove] returns
    true exactly when the mask was in the set, and the set then holds what
    it held except the mask; [AddAll] returns true exactly when one of the
    masks was not in the set, and the set then holds all of them besides
    what it held. *)
Theorem mask_membership (order : list Name) (set : UserMaskSet.t)
    (mask : Name) (new_masks : list Name) :
  ((UserMaskSet.Add order mask set).2 = negb (UserMaskSet.has set mask) /\
   forall m, UserMaskSet.has (UserMaskSet.Add order mask set).1 m
             = UserMaskSet.has set m || bool_decide (m = mask)) /\
  ((UserMaskSet.Remove order mask set).2 = UserMaskSet.has set mask /\
   forall m, UserMaskSet.has (UserMaskSet.Remove order mask set).1 m
             = UserMaskSet.has set m && negb (bool_decide (m = mask))) /\
  ((UserMaskSet.AddAll order new_masks set).2
     = existsb (fun m => negb (UserMaskSet.has set m)) new_masks /\
   forall m, UserMaskSet.has (UserMaskSet.AddAll order new_masks set).1 m
             = UserMaskSet.has set m || bool_decide (m ∈ new_masks)).
Proof.
  split; [|split].
  - unfold UserMaskSet.Add.
    destruct (UserMaskSet.has set mask) eqn:Hhas; simpl.
    + split; [done|]. intros m. case_bool_decide; [by subst; rewrite Hhas|].
      by rewrite orb_false_r.
    + split; [done|]. intros m. unfold UserMaskSet.has.
      rewrite setRegexp_masks. simpl. rewrite lookup_insert.
      case_decide; case_bool_decide; subst; simpl; try done.
      * by rewrite orb_true_r.
      * by rewrite orb_false_r.
  - unfold UserMaskSet.Remove.
    destruct (UserMaskSet.has set mask) eqn:Hhas; simpl.
    + split; [done|]. intros m. unfold UserMaskSet.has.
      rewrite setRegexp_masks. simpl. rewrite lookup_delete.
      case_decide; case_bool_decide; subst; simpl; try done.
      * by rewrite andb_false_r.
      * by rewrite andb_true_r.
    + split; [done|]. intros m. case_bool_decide; simpl.
      * subst. by rewrite Hhas.
      * by rewrite andb_true_r.
  - unfold UserMaskSet.AddAll.
    destruct (fold_left _ new_masks _) as [m' added'] eqn:Hfold.
    destruct (AddAll_loop _ _ _ _ _ Hfold) as [-> Hhas]. simpl. split; [done|].
    intros m. unfold UserMaskSet.has. rewrite setRegexp_masks. simpl. apply Hhas.
Qed.

(** ** What [Match] answers depends on the masks alone *)

Lemma many_masks_match (set : UserMaskSet.t) (userhost : Name) :
  UserMaskSet.reachable set ->
  2 <= size (UserMaskSet.masks set) ->
  Spec.masks_valid set ->
  UserMaskSet.Match set userhost = true.
Proof.
  intros Hreach Hsize Hvalid.
  destruct (reachable_compiled _ Hreach) as (order & Hiter & Heq).
  pose proof (iteration_of_length _ _ Hiter) as Hlen.
  destruct (exists_last (l := order)) as (init & last & ->).
  { intros ->. simpl in Hlen. lia. }
  rewrite length_app in Hlen. simpl in Hlen.
  assert (utf8.ValidString last = true) as Hlast.
  { apply Hvalid.
    apply (iteration_has set (init ++ [last])); [|done|].
    - by apply reachable_all_true.
    - apply elem_of_app. right. apply list_elem_of_here. }
  pose proof (setRegexp_expr_many init last set) as Hmany.
  rewrite Hlast in Hmany.
  destruct Hmany as (re & Hre & Hin).
  { lia. }
  { intros ->. simpl in Hlen. lia. }
  rewrite Heq in Hre. unfold UserMaskSet.Match. rewrite Hre.
  unfold regexp.MatchString. apply existsb_exists.
  exists [regexp.One regexp.EndText]. split; [done | apply match_from_end].
Qed.

(** X3.  Two mask sets reached from [NewUserMaskSet] that hold the same
    masks, all of them valid UTF-8, give the same answer to every
    [Match], whatever operations built them and whatever orders the map
    iterations took. *)
Theorem Match_depends_on_masks (set1 set2 : UserMaskSet.t) (userhost : Name) :
  UserMaskSet.reachable set1 ->
  UserMaskSet.reachable set2 ->
  UserMaskSet.masks set1 = UserMaskSet.masks set2 ->
  Spec.masks_valid set1 ->
  UserMaskSet.Match set1 userhost = UserMaskSet.Match set2 userhost.
Proof.
  intros Hreach1 Hreach2 Hmasks Hvalid.
  destruct (size (UserMaskSet.masks set1)) as [|[|n]] eqn:Hsize.
  - unfold UserMaskSet.Match.
    rewrite (reachable_empty_regexp _ Hreach1 Hsize).
    rewrite Hmasks in Hsize. by rewrite (reachable_empty_regexp _ Hreach2 Hsize).
  - destruct (reachable_single_regexp _ Hreach1 Hsize) as (m1 & Hm1 & Hre1).
    rewrite Hmasks in Hsize.
    destruct (reachable_single_regexp _ Hreach2 Hsize) as (m2 & Hm2 & Hre2).
    assert (m1 = m2) as ->.
    { apply Hm2. unfold UserMaskSet.has. rewrite <- Hmasks. by apply Hm1. }
    unfold UserMaskSet.Match. by rewrite Hre1, Hre2.
  - rewrite (many_masks_match set1) by (done || lia).
    rewrite (many_masks_match set2); [done..| |].
    + rewrite <- Hmasks. lia.
    + intros mask Hhas. apply Hvalid.
      unfold UserMaskSet.has in *. by rewrite Hmasks.
Qed.

(** Without that condition the answer depends on the order: of two sets
    that hold [a] and a byte that is no UTF-8, the one whose iteration
    ends with [a] matches every userhost and the other none. *)
Example Match_depends_on_order :
  UserMaskSet.masks (Sample.a_and_byte ["a"; String "255" EmptyString])
  = UserMaskSet.masks (Sample.a_and_byte [String "255" EmptyString; "a"]) /\
  UserMaskSet.Match (Sample.a_and_byte ["a"; String "255" EmptyString]) "zzz" = false /\
  UserMaskSet.Match (Sample.a_and_byte [String "255" EmptyString; "a"]) "zzz" = true.
Proof. vm_compute. repeat split. Qed.

Lemma Match_depends_on_masks_witness :
  UserMaskSet.Match (Sample.a_then_b ["a"; "b"]) "carol!user@host"
  = UserMaskSet.Match (Sample.b_then_a ["a"; "b"]) "carol!user@host".
Proof.
  apply (Match_depends_on_masks (Sample.a_then_b ["a"; "b"])
           (Sample.b_then_a ["a"; "b"]) "carol!user@host").
  - apply UserMaskSet.reach_Add.
    + apply (UserMaskSet.reach_Add _ _ _ UserMaskSet.reach_New).
      unfold UserMaskSet.iteration_of. vm_compute. reflexivity.
    + unfold UserMaskSet.iteration_of. vm_compute. reflexivity.
  - apply UserMaskSet.reach_Add.
    + apply (UserMaskSet.reach_Add _ _ _ UserMaskSet.reach_New).
      unfold UserMaskSet.iteration_of. vm_compute. reflexivity.
    + unfold UserMaskSet.iteration_of. vm_compute. reflexivity.
  - vm_compute. reflexivity.
  - apply masks_valid_keys. vm_compute. reflexivity.
Defined.

(** ** Wildcards in a mask *)

Lemma match_from_literal (r : utf8.rune) (pos : nat) (s : list utf8.rune) :
  regexp.match_from [regexp.One (regexp.Lit r)] pos s = true <-> r ∈ s.
Proof.
  revert pos. induction s as [|d s IH]; intros pos; simpl.
  - split; [done|]. by intros ?%elem_of_nil.
  - rewrite andb_true_r, orb_true_iff, IH, elem_of_cons, N.eqb_eq.
    split; (intros [->|?]; [by left | by right]).
Qed.

Lemma glob_without_wildcards (mask s : string) :
  ~ Spec.occurs "*" mask -> ~ Spec.occurs "?" mask ->
  Spec.glob mask s <-> s = mask.
Proof.
  intros Hstar Hone. split.
  - induction 1 as [|mask run s _ _|mask c s _ _|mask c s _ _ _ IH].
    + done.
    + destruct Hstar. apply occurs_cons. by left.
    + destruct Hone. apply occurs_cons. by left.
    + f_equal. apply IH.
      * intros Hin. apply Hstar, occurs_cons. by right.
      * intros Hin. apply Hone, occurs_cons. by right.
  - intros ->. induction mask as [|c mask IH]; [constructor|].
    constructor.
    + intros ->. apply Hstar, occurs_cons. by left.
    + intros ->. apply Hone, occurs_cons. by left.
    + apply IH.
      * intros Hin. apply Hstar, occurs_cons. by right.
      * intros Hin. apply Hone, occurs_cons. by right.
Qed.

(** X4.  [HasWildcards] answers true exactly for the masks in which a
    [*] or a [?] occurs; a mask for which it answers false matches, as a
    glob, itself and nothing else. *)
Theorem HasWildcards_occurs (mask : string) :
  (HasWildcards mask = true <-> Spec.occurs "*" mask \/ Spec.occurs "?" mask) /\
  (HasWildcards mask = false -> forall s, Spec.glob mask s <-> s = mask).
Proof.
  assert (HasWildcards mask = true <-> Spec.occurs "*" mask \/ Spec.occurs "?" mask)
    as Hiff.
  { unfold HasWildcards.
    change wildMaskExpr
      with (Some [[regexp.One (regexp.Lit (utf8.byte "*"))];
                  [regexp.One (regexp.Lit (utf8.byte "?"))]]).
    unfold regexp.MatchString. cbn [existsb].
    by rewrite orb_false_r, orb_true_iff, !match_from_literal, !runes_occurs. }
  split; [done|].
  intros Hfalse s. apply glob_without_wildcards.
  - intros Hin. assert (HasWildcards mask = true) by (apply Hiff; by left). congruence.
  - intros Hin. assert (HasWildcards mask = true) by (apply Hiff; by right). congruence.
Qed.

(** ** The masks of a set as a string *)

Lemma String_loop (order prefix : list Name) :
  fold_left (fun '(masks_, index) mask => (<[index := mask]> masks_, index + 1))
            order (prefix ++ replicate (length order) EmptyString, length prefix)
  = (prefix ++ order, length prefix + length order).
Proof.
  revert prefix. induction order as [|mask order IH]; intros prefix.
  - simpl. by rewrite !app_nil_r, Nat.add_0_r.
  - cbn [fold_left length replicate].
    replace (<[length prefix := mask]> (prefix ++ EmptyString :: replicate (length order) EmptyString))
      with ((prefix ++ [mask]) ++ replicate (length order) EmptyString).
    + replace (length prefix + 1) with (length (prefix ++ [mask]))
        by (rewrite length_app; simpl; lia).
      rewrite IH, length_app, <- app_assoc. simpl. f_equal. lia.
    + rewrite <- app_assoc. simpl.
      rewrite (insert_app_r_alt prefix _ (length prefix)) by lia.
      by rewrite Nat.sub_diag.
Qed.

Lemma Split_without_sep (sep : ascii) (s : string) :
  ~ Spec.occurs sep s -> strings.Split s sep = [s].
Proof.
  induction s as [|c s IH]; intros Hsep; [done|].
  simpl. destruct (Ascii.eqb_spec c sep) as [->|Hne].
  - destruct Hsep. apply occurs_cons. by left.
  - rewrite IH; [done|]. intros Hin. apply Hsep, occurs_cons. by right.
Qed.

Lemma Split_app_sep (sep : ascii) (s rest : string) :
  ~ Spec.occurs sep s ->
  strings.Split (s +:+ String sep rest) sep = s :: strings.Split rest sep.
Proof.
  induction s as [|c s IH]; intros Hsep.
  - simpl. by rewrite Ascii.eqb_refl.
  - rewrite append_cons. simpl. destruct (Ascii.eqb_spec c sep) as [->|Hne].
    + destruct Hsep. apply occurs_cons. by left.
    + rewrite IH; [done|]. intros Hin. apply Hsep, occurs_cons. by right.
Qed.

(** Splitting what [Join] joined gives the elements back, when there is
    one at least and the separator occurs in none. *)
Lemma Split_Join (sep : ascii) (elems : list string) :
  elems <> [] ->
  (forall e, e ∈ elems -> ~ Spec.occurs sep e) ->
  strings.Split (strings.Join elems (String sep EmptyString)) sep = elems.
Proof.
  induction elems as [|e elems IH]; intros Hne Hsep; [done|].
  destruct elems as [|e' elems].
  - simpl. apply Split_without_sep, Hsep, list_elem_of_here.
  - rewrite Join_cons by done.
    change (String sep EmptyString +:+ ?s) with (String sep s).
    rewrite Split_app_sep by apply Hsep, list_elem_of_here.
    f_equal. apply IH; [done|].
    intros x Hx. by apply Hsep, list_elem_of_further.
Qed.

(** X5.  [String] writes every mask of the set into a slot of its own:
    the result is the masks joined by single spaces in the order of the
    iteration, and when the set is not empty and no mask holds a space,
    splitting the result at the spaces gives the masks back, each once. *)
Theorem String_fills_slots (order : list Name) (set : UserMaskSet.t) :
  UserMaskSet.iteration_of (UserMaskSet.masks set) order ->
  UserMaskSet.String order set = strings.Join order " " /\
  (order <> [] ->
   (forall mask, mask ∈ order -> ~ Spec.occurs " " mask) ->
   strings.Split (UserMaskSet.String order set) " " = order).
Proof.
  intros Hiter.
  assert (UserMaskSet.String order set = strings.Join order " ") as Heq.
  { unfold UserMaskSet.String.
    rewrite <- (iteration_of_length _ _ Hiter).
    pose proof (String_loop order []) as Hloop. simpl in Hloop.
    by rewrite Hloop. }
  split; [done|].
  intros Hne Hspace. rewrite Heq. by apply Split_Join.
Qed.

Lemma String_fills_slots_witness :
  UserMaskSet.String ["a"; "b"] (Sample.a_then_b ["a"; "b"]) = "a b" /\
  strings.Split (UserMaskSet.String ["a"; "b"] (Sample.a_then_b ["a"; "b"])) " "
  = ["a"; "b"].
Proof.
  destruct (String_fills_slots ["a"; "b"] (Sample.a_then_b ["a"; "b"])) as [Heq Hsplit].
  - unfold UserMaskSet.iteration_of. vm_compute. reflexivity.
  - split; [exact Heq|]. apply Hsplit; [done|].
    intros mask Hin Hocc. apply Contains_char in Hocc.
    apply elem_of_cons in Hin as [->|Hin]; [discriminate|].
    apply elem_of_cons in Hin as [->|Hin]; [discriminate|].
    by apply elem_of_nil in Hin.
Defined.

(** ** Looking up, adding and removing clients *)

Section LookupSetMore.
Context `{ClientModel}.

(** A client that has a nickname reports it through [Nick()]. *)
Hypothesis Nick_nick : forall c : client, HasNick c = true -> Nick c = nick c.

(** X6.  After an [Add] that returned no error, [Get] finds the client
    under every name that folds like its nickname, and answers for the
    other names as before; after a [Remove] that returned no error, [Get]
    finds nothing under those names, and answers for the others as
    before. *)
Theorem Get_after_Add_Remove (fault : bool) (c : client)
    (clients : ClientLookupSet.t) (name : Name) :
  (ClientLookupSet.err (ClientLookupSet.Add fault c clients) = None ->
   ClientLookupSet.Get (ClientLookupSet.state (ClientLookupSet.Add fault c clients)) name
   = if decide (ToLower name = ToLower (nick c)) then Some c
     else ClientLookupSet.Get clients name) /\
  (ClientLookupSet.err (ClientLookupSet.Remove fault c clients) = None ->
   ClientLookupSet.Get (ClientLookupSet.state (ClientLookupSet.Remove fault c clients)) name
   = if decide (ToLower name = ToLower (nick c)) then None
     else ClientLookupSet.Get clients name).
Proof.
  split; intros Herr.
  - destruct (Add_outcome Nick_nick fault c clients)
      as [(_ & Hrefused & _)|(_ & _ & _ & Hmap & _)]; [done|].
    unfold ClientLookupSet.Get. rewrite Hmap, lookup_insert.
    repeat case_decide; congruence.
  - destruct (Remove_outcome fault c clients)
      as [(_ & Hrefused & _)|(_ & _ & _ & Hmap & _)]; [done|].
    unfold ClientLookupSet.Get. rewrite Hmap, lookup_delete.
    repeat case_decide; congruence.
Qed.

(** Deleting by nickname right after an insertion that found no row
    with that nickname removes the new row and no other. *)
Lemma delete_inserted_row (db : list (string * string)) (nickname userhost : string) :
  (forall r, r ∈ db -> ClientDB.nocase r.1 <> ClientDB.nocase nickname) ->
  filter (fun r : string * string => negb (ClientDB.nocase_eq r.1 nickname))
         (db ++ [(nickname, userhost)]) = db.
Proof.
  intros Hfresh. induction db as [|r db IH]; simpl.
  - rewrite filter_cons_False, filter_nil; [done|].
    simpl. unfold ClientDB.nocase_eq. rewrite bool_decide_eq_true_2 by done.
    by intros [].
  - rewrite filter_cons_True.
    + f_equal. apply IH. intros r' Hr'. by apply Hfresh, list_elem_of_further.
    + unfold ClientDB.nocase_eq. rewrite bool_decide_eq_false_2; [done|].
      apply Hfresh, list_elem_of_here.
Qed.

(** X7.  Removing a client right after an [Add] that succeeded and whose
    row went into the index gives back the lookup set as it was before
    the [Add]: the nickname map and the rows of the index are the same. *)
Theorem Add_Remove_round_trip (fault : bool) (c : client)
    (clients : ClientLookupSet.t) :
  ClientLookupSet.err (ClientLookupSet.Add fault c clients) = None ->
  ClientLookupSet.logged (ClientLookupSet.Add fault c clients) = [] ->
  ClientLookupSet.Remove false c
    (ClientLookupSet.state (ClientLookupSet.Add fault c clients))
  = {| ClientLookupSet.state := clients;
       ClientLookupSet.err := None;
       ClientLookupSet.logged := [] |}.
Proof.
  intros Herr Hquiet.
  destruct (Add_outcome Nick_nick fault c clients)
    as [(_ & Hrefused & _)|(Hhas & Hget & _ & Hmap & Hdb & Hlog)]; [done|].
  rewrite Hlog in Hquiet.
  destruct (ClientDB_Add_quiet fault c _ Hquiet) as [Hadd Hfresh].
  rewrite Hadd in Hdb.
  destruct (ClientLookupSet.state (ClientLookupSet.Add fault c clients))
    as [byNick' db'] eqn:Hstate.
  simpl in Hmap, Hdb. subst byNick' db'.
  unfold ClientLookupSet.Remove. rewrite Hhas. simpl.
  unfold ClientLookupSet.Get at 1. simpl.
  rewrite bool_decide_eq_false_2
    by (intros Hne; apply Hne, lookup_insert_eq).
  unfold ClientDB.Remove, ClientDB.exec_delete. simpl.
  rewrite delete_insert_id by done.
  unfold ClientDB.t, ClientDB.row in *.
  rewrite delete_inserted_row by done. by destruct clients.
Qed.

(** X8.  An [Add] or a [Remove] that returns an error has changed
    neither the nickname map nor the index and has logged nothing; the
    error of [Remove] for a client that has a nickname and is not the one
    registered under it is [ErrNicknameMismatch], and a client without
    nickname gets [ErrNickMissing] from both. *)
Theorem refused_leaves_set (fault : bool) (c : client) (clients : ClientLookupSet.t) :
  (ClientLookupSet.err (ClientLookupSet.Add fault c clients) <> None ->
   ClientLookupSet.state (ClientLookupSet.Add fault c clients) = clients /\
   ClientLookupSet.logged (ClientLookupSet.Add fault c clients) = []) /\
  (ClientLookupSet.err (ClientLookupSet.Remove fault c clients) <> None ->
   ClientLookupSet.state (ClientLookupSet.Remove fault c clients) = clients /\
   ClientLookupSet.logged (ClientLookupSet.Remove fault c clients) = []) /\
  (HasNick c = true -> ClientLookupSet.Get clients (nick c) <> Some c ->
   ClientLookupSet.err (ClientLookupSet.Remove fault c clients)
   = Some ErrNicknameMismatch) /\
  (HasNick c = false ->
   ClientLookupSet.err (ClientLookupSet.Add fault c clients) = Some ErrNickMissing /\
   ClientLookupSet.err (ClientLookupSet.Remove fault c clients) = Some ErrNickMissing).
Proof.
  split; [|split; [|split]].
  - intros Herr.
    destruct (Add_outcome Nick_nick fault c clients)
      as [(? & _ & ?)|(_ & _ & Hnone & _)]; [done | by destruct Herr].
  - intros Herr.
    destruct (Remove_outcome fault c clients)
      as [(? & _ & ?)|(_ & _ & Hnone & _)]; [done | by destruct Herr].
  - intros Hhas Hget. unfold ClientLookupSet.Remove.
    rewrite Hhas. simpl. by rewrite bool_decide_eq_true_2.
  - intros Hhas. unfold ClientLookupSet.Add, ClientLookupSet.Remove.
    by rewrite Hhas.
Qed.

End LookupSetMore.

(** ** [QuoteLike] under [LIKE] *)

Lemma finish_high (c : N) : (128 <= sqlite.finish c)%N.
Proof.
  unfold sqlite.finish. destruct (N.ltb_spec c 128%N); simpl; [lia|].
  destruct (_ || _); lia.
Qed.

Lemma quote_like_high (c : N) : (128 <= c)%N -> Aux.quote_like c = [c].
Proof.
  intros Hc. unfold Aux.quote_like.
  repeat match goal with
         | |- context [(c =? ?k)%N] => destruct (N.eqb_spec c k); [lia|]
         end.
  done.
Qed.

Lemma quote_like_emit (pending : option N) :
  flat_map Aux.quote_like (sqlite.emit pending) = sqlite.emit pending.
Proof.
  destruct pending as [c|]; [|done]. simpl.
  by rewrite quote_like_high by apply finish_high.
Qed.

(** A character that [QuoteLike] keeps. *)
Lemma like_char_other (c : ascii) :
  N_of_ascii c <> 42%N -> N_of_ascii c <> 63%N -> N_of_ascii c <> 92%N ->
  N_of_ascii c <> 37%N -> N_of_ascii c <> 95%N ->
  Spec.like_char c = String c EmptyString /\
  Aux.quote_like (N_of_ascii c) = [N_of_ascii c].
Proof.
  intros H42 H63 H92 H37 H95. split.
  - unfold Spec.like_char.
    repeat match goal with
           | |- context [Ascii.eqb c ?k] =>
               destruct (Ascii.eqb_spec c k) as [->|_]; [done|]
           end.
    done.
  - unfold Aux.quote_like.
    repeat match goal with
           | |- context [(?a =? ?k)%N] => destruct (N.eqb_spec a k); [done|]
           end.
    done.
Qed.

Lemma byte_is (c : ascii) (n : N) : N_of_ascii c = n -> c = ascii_of_N n.
Proof. intros <-. by rewrite ascii_N_embedding. Qed.

(** [QuoteLike] rewrites bytes and SQLite reads characters: the
    characters of the pattern are those of the mask, each translated. *)
Lemma read_QuoteLike (mask : string) (pending : option N) :
  sqlite.read pending (QuoteLike mask)
  = flat_map Aux.quote_like (sqlite.read pending mask).
Proof.
  revert pending. induction mask as [|c mask IH]; intros pending.
  - simpl. by rewrite quote_like_emit.
  - rewrite QuoteLike_cons.
    destruct (N.eq_dec (N_of_ascii c) 42%N) as [->%byte_is|H42];
      [|destruct (N.eq_dec (N_of_ascii c) 63%N) as [->%byte_is|H63];
        [|destruct (N.eq_dec (N_of_ascii c) 92%N) as [->%byte_is|H92];
          [|destruct (N.eq_dec (N_of_ascii c) 37%N) as [->%byte_is|H37];
            [|destruct (N.eq_dec (N_of_ascii c) 95%N) as [->%byte_is|H95]]]]].
    1-5: destruct pending as [p|]; simpl; rewrite IH; try done;
         by rewrite quote_like_high by apply finish_high.
    destruct (like_char_other c H42 H63 H92 H37 H95) as [-> Hquote].
    rewrite append_cons. change (EmptyString +:+ ?x) with x.
    cbn [sqlite.read].
    destruct (N.eqb_spec (N_of_ascii c) 0%N); [by rewrite quote_like_emit|].
    destruct pending as [p|].
    + destruct ((128 <=? N_of_ascii c)%N && (N_of_ascii c <? 192)%N); [apply IH|].
      cbn [flat_map]. rewrite quote_like_high by apply finish_high.
      cbn [app]. f_equal.
      destruct (N_of_ascii c <? 192)%N; [|apply IH].
      cbn [flat_map]. rewrite Hquote. cbn [app]. f_equal. apply IH.
    + destruct (N_of_ascii c <? 192)%N; [|apply IH].
      cbn [flat_map]. rewrite Hquote. cbn [app]. f_equal. apply IH.
Qed.

Lemma chars_QuoteLike (mask : string) :
  sqlite.chars (QuoteLike mask) = flat_map Aux.quote_like (sqlite.chars mask).
Proof. apply read_QuoteLike. Qed.

Lemma like_all_iff (k : list N -> bool) (s : list N) :
  sqlite.like_all k s = true <-> exists run rest, s = run ++ rest /\ k rest = true.
Proof.
  induction s as [|c s IH]; simpl.
  - rewrite orb_false_r. split.
    + intros Hk. by exists [], [].
    + intros ([|x run] & rest & Heq & Hk); simpl in Heq; [by subst rest | done].
  - rewrite orb_true_iff, IH. split.
    + intros [Hk|(run & rest & -> & Hk)].
      * by exists [], (c :: s).
      * by exists (c :: run), rest.
    + intros ([|x run] & rest & Heq & Hk); simpl in Heq.
      * left. by subst rest.
      * right. injection Heq as -> ->. by exists run, rest.
Qed.

(** Two characters stand for each other exactly when they are the same
    once the letters of ASCII are folded. *)
Lemma eq_nocase_fold (c e : N) :
  sqlite.eq_nocase c e = true <-> sqlite.fold c = sqlite.fold e.
Proof.
  unfold sqlite.eq_nocase, sqlite.fold.
  destruct (N.eqb_spec c e) as [->|Hne]; [done|]. rewrite orb_false_l.
  rewrite !andb_true_iff, !N.ltb_lt, N.eqb_eq.
  destruct (N.leb_spec 65%N c), (N.leb_spec c 90%N), (N.leb_spec 65%N e),
    (N.leb_spec e 90%N); simpl; lia.
Qed.

Lemma fold_wildcard (c : N) :
  (sqlite.fold c = 42%N <-> c = 42%N) /\ (sqlite.fold c = 63%N <-> c = 63%N).
Proof.
  unfold sqlite.fold.
  destruct (N.leb_spec 65%N c), (N.leb_spec c 90%N); simpl; lia.
Qed.

Lemma uglob_star_iff (mask s : list N) :
  Spec.uglob (42%N :: mask) s <->
  exists run rest, s = run ++ rest /\ Spec.uglob mask rest.
Proof.
  split.
  - inversion 1; subst; [eauto|done].
  - intros (run & rest & -> & Hglob). by apply Spec.uglob_star.
Qed.

Lemma uglob_one_iff (mask s : list N) :
  Spec.uglob (63%N :: mask) s <->
  exists c rest, s = c :: rest /\ Spec.uglob mask rest.
Proof.
  split.
  - inversion 1; subst; [eauto|done].
  - intros (c & rest & -> & Hglob). by apply Spec.uglob_one.
Qed.

Lemma uglob_char_iff (c : N) (mask s : list N) :
  c <> 42%N -> c <> 63%N ->
  Spec.uglob (c :: mask) s <-> exists rest, s = c :: rest /\ Spec.uglob mask rest.
Proof.
  intros Hstar Hone. split.
  - inversion 1; subst; try done. eauto.
  - intros (rest & -> & Hglob). by apply Spec.uglob_char.
Qed.

(** A literal character of the pattern against the text. *)
Lemma literal_iff (c : N) (pattern s mask : list N)
    (IH : forall s, sqlite.patternCompare pattern s = true <->
                    Spec.uglob mask (sqlite.fold <$> s)) :
  c <> 42%N -> c <> 63%N ->
  match s with
  | [] => false
  | e :: s' => sqlite.eq_nocase c e && sqlite.patternCompare pattern s'
  end = true <->
  Spec.uglob (sqlite.fold c :: mask) (sqlite.fold <$> s).
Proof.
  intros Hstar Hone.
  destruct (fold_wildcard c) as [H42 H63].
  rewrite uglob_char_iff by (rewrite ?H42, ?H63; done).
  destruct s as [|e s]; simpl.
  - split; [done|]. by intros (? & ? & _).
  - rewrite andb_true_iff, IH, eq_nocase_fold. split.
    + intros [-> Hglob]. eauto.
    + by intros (? & [= -> <-] & ?).
Qed.

Lemma patternCompare_quoted (mask s : list N) :
  sqlite.patternCompare (flat_map Aux.quote_like mask) s = true <->
  Spec.uglob (sqlite.fold <$> mask) (sqlite.fold <$> s).
Proof.
  revert s. induction mask as [|c mask IH]; intros s.
  - destruct s; simpl; split; try done; [constructor | inversion 1].
  - cbn [flat_map]. rewrite fmap_cons. unfold Aux.quote_like.
    destruct (N.eqb_spec c 42%N) as [->|H42];
      [|destruct (N.eqb_spec c 63%N) as [->|H63];
        [|destruct (N.eqb_spec c 92%N) as [->|H92];
          [|destruct (N.eqb_spec c 37%N) as [->|H37];
            [|destruct (N.eqb_spec c 95%N) as [->|H95]]]]].
    + change (sqlite.fold 42%N) with 42%N. cbn [app sqlite.patternCompare].
      change (42 =? 37)%N with false. change (37 =? 37)%N with true. cbv iota.
      rewrite like_all_iff, uglob_star_iff. split.
      * intros (run & rest & -> & Hlike). rewrite fmap_app.
        exists (sqlite.fold <$> run), (sqlite.fold <$> rest). split; [done|].
        by apply IH.
      * intros (run & rest & Heq & Hglob).
        apply fmap_app_inv in Heq as (s1 & s2 & -> & -> & ->).
        exists s1, s2. split; [done|]. by apply IH.
    + change (sqlite.fold 63%N) with 63%N. cbn [app sqlite.patternCompare].
      change (95 =? 37)%N with false. change (95 =? 95)%N with true. cbv iota.
      rewrite uglob_one_iff. destruct s as [|e s]; simpl.
      * split; [done|]. by intros (? & ? & ? & _).
      * rewrite IH. split; [eauto|]. by intros (? & ? & [= _ <-] & ?).
    + cbn [app sqlite.patternCompare].
      change (92 =? 37)%N with false. change (92 =? 95)%N with false.
      change (92 =? 92)%N with true. cbv iota.
      by apply literal_iff.
    + cbn [app sqlite.patternCompare].
      change (92 =? 37)%N with false. change (92 =? 95)%N with false.
      change (92 =? 92)%N with true. cbv iota.
      by apply literal_iff.
    + cbn [app sqlite.patternCompare].
      change (92 =? 37)%N with false. change (92 =? 95)%N with false.
      change (92 =? 92)%N with true. cbv iota.
      by apply literal_iff.
    + cbn [app sqlite.patternCompare].
      destruct (N.eqb_spec c 37%N); [done|]. destruct (N.eqb_spec c 95%N); [done|].
      destruct (N.eqb_spec c 92%N); [done|].
      by apply literal_iff.
Qed.


(** X9.  The pattern that [QuoteLike] makes of a mask is [LIKE], with
    the backslash as escape, exactly the texts that the mask matches as a
    glob when the case of ASCII letters is ignored on both sides.  Mask
    and text are taken as SQLite reads them: up to the first NUL byte,
    character by character, so that [?] stands for one character and not
    for one byte. *)
Theorem QuoteLike_like_glob (mask s : string) :
  sqlite.like (QuoteLike mask) s = true <->
  Spec.uglob (sqlite.fold <$> sqlite.chars mask) (sqlite.fold <$> sqlite.chars s).
Proof.
  unfold sqlite.like. rewrite chars_QuoteLike. apply patternCompare_quoted.
Qed.

(** The mask [?] finds a userhost of one character that takes two bytes,
    and [a*] does not find a userhost in which a NUL byte follows the
    [a]: SQLite reads that userhost as [a] alone. *)
Example like_beyond_ASCII :
  sqlite.like (QuoteLike "?") "é" = true /\
  sqlite.like (QuoteLike "?") "ab" = false /\
  sqlite.like (QuoteLike "a*b") (String "a" (String "000" "b")) = false /\
  sqlite.like (QuoteLike "a") (String "a" (String "000" "b")) = true /\
  sqlite.like (QuoteLike "100%_A\") "100%_a\" = true.
Proof. vm_compute. repeat split. Qed.

(** ** [FindAll] and [Find] over an index that answers *)



Section FindOverIndex.
Context `{ClientModel}.

(** A client that has a nickname reports it through [Nick()]. *)
Hypothesis Nick_nick : forall c : client, HasNick c = true -> Nick c = nick c.




End FindOverIndex.

(** ** Encoding and decoding a credential *)

Lemma of_byte_lt (b : Byte.byte) : base64.of_byte b < 256.
Proof. unfold base64.of_byte. apply nat_ascii_bounded. Qed.

Lemma to_byte_of_byte (b : Byte.byte) : base64.to_byte (base64.of_byte b) = b.
Proof.
  unfold base64.to_byte, base64.of_byte.
  by rewrite ascii_nat_embedding, byte_of_ascii_of_byte.
Qed.

Lemma decodeMap_encodeStd (v : nat) :
  v < 64 -> base64.decodeMap (base64.encodeStd v) = Some v.
Proof.
  intros Hv. do 64 (destruct v as [|v]; [reflexivity|]). lia.
Qed.

Lemma encodeStd_not_newline (v : nat) :
  v < 64 -> base64.is_newline (base64.encodeStd v) = false.
Proof.
  intros Hv. do 64 (destruct v as [|v]; [reflexivity|]). lia.
Qed.

(** The arithmetic of one group of three bytes. *)
Lemma quantum_bytes (n0 n1 n2 : nat) :
  n0 < 256 -> n1 < 256 -> n2 < 256 ->
  n0 / 4 < 64 /\ n0 mod 4 * 16 + n1 / 16 < 64 /\
  n1 mod 16 * 4 + n2 / 64 < 64 /\ n2 mod 64 < 64 /\
  n0 / 4 * 4 + (n0 mod 4 * 16 + n1 / 16) / 16 = n0 /\
  (n0 mod 4 * 16 + n1 / 16) mod 16 * 16 + (n1 mod 16 * 4 + n2 / 64) / 4 = n1 /\
  (n1 mod 16 * 4 + n2 / 64) mod 4 * 64 + n2 mod 64 = n2.
Proof. intros. repeat split; zify; Z.div_mod_to_equations; lia. Qed.

Lemma decode_quantum (c0 c1 c2 c3 : ascii) (v0 v1 v2 v3 : nat) (rest : list ascii) :
  base64.decodeMap c0 = Some v0 -> base64.decodeMap c1 = Some v1 ->
  base64.decodeMap c2 = Some v2 -> base64.decodeMap c3 = Some v3 ->
  base64.decode (c0 :: c1 :: c2 :: c3 :: rest)
  = (base64.byte0 v0 v1 :: base64.byte1 v1 v2 :: base64.byte2 v2 v3
       :: (base64.decode rest).1,
     (base64.decode rest).2).
Proof.
  intros H0 H1 H2 H3. cbn [base64.decode]. rewrite H0, H1, H2, H3.
  by destruct (base64.decode rest).
Qed.

Lemma decode_padded_2 (c0 c1 c2 : ascii) (v0 v1 v2 : nat) :
  base64.decodeMap c0 = Some v0 -> base64.decodeMap c1 = Some v1 ->
  base64.decodeMap c2 = Some v2 ->
  base64.decode [c0; c1; c2; "="%char]
  = ([base64.byte0 v0 v1; base64.byte1 v1 v2], None).
Proof. intros H0 H1 H2. cbn [base64.decode]. by rewrite H0, H1, H2. Qed.

Lemma decode_padded_1 (c0 c1 : ascii) (v0 v1 : nat) :
  base64.decodeMap c0 = Some v0 -> base64.decodeMap c1 = Some v1 ->
  base64.decode [c0; c1; "="%char; "="%char] = ([base64.byte0 v0 v1], None).
Proof. intros H0 H1. cbn [base64.decode]. by rewrite H0, H1. Qed.

Lemma decode_encode (src : list Byte.byte) :
  base64.decode (base64.encode src) = (src, None).
Proof.
  assert (forall n src, length src <= n ->
            base64.decode (base64.encode src) = (src, None)) as Hind;
    [|by apply (Hind (length src))].
  clear src. induction n as [|n IH]; intros src Hlen.
  - destruct src; [done | simpl in Hlen; lia].
  - destruct src as [|b0 [|b1 [|b2 rest]]]; [done| | |].
    + pose proof (of_byte_lt b0) as H0.
      destruct (quantum_bytes (base64.of_byte b0) 0 0 H0) as (Hv0 & Hv1 & _ & _ & Hb0 & _);
        [lia..|].
      change (0 / 16) with 0 in *. rewrite Nat.add_0_r in *.
      cbn [base64.encode].
      rewrite (decode_padded_1 _ _ _ _ (decodeMap_encodeStd _ Hv0)
                 (decodeMap_encodeStd _ Hv1)).
      unfold base64.byte0. by rewrite Hb0, to_byte_of_byte.
    + pose proof (of_byte_lt b0) as H0. pose proof (of_byte_lt b1) as H1.
      destruct (quantum_bytes (base64.of_byte b0) (base64.of_byte b1) 0 H0 H1)
        as (Hv0 & Hv1 & Hv2 & _ & Hb0 & Hb1 & _); [lia|].
      change (0 / 64) with 0 in *. rewrite Nat.add_0_r in *.
      cbn [base64.encode].
      rewrite (decode_padded_2 _ _ _ _ _ _ (decodeMap_encodeStd _ Hv0)
                 (decodeMap_encodeStd _ Hv1) (decodeMap_encodeStd _ Hv2)).
      unfold base64.byte0, base64.byte1. by rewrite Hb0, Hb1, !to_byte_of_byte.
    + pose proof (of_byte_lt b0) as H0. pose proof (of_byte_lt b1) as H1.
      pose proof (of_byte_lt b2) as H2.
      destruct (quantum_bytes _ _ _ H0 H1 H2)
        as (Hv0 & Hv1 & Hv2 & Hv3 & Hb0 & Hb1 & Hb2).
      cbn [base64.encode].
      rewrite (decode_quantum _ _ _ _ _ _ _ _ _ (decodeMap_encodeStd _ Hv0)
                 (decodeMap_encodeStd _ Hv1) (decodeMap_encodeStd _ Hv2)
                 (decodeMap_encodeStd _ Hv3)).
      rewrite IH by (simpl in Hlen; lia).
      unfold base64.byte0, base64.byte1, base64.byte2. cbn [fst snd].
      by rewrite Hb0, Hb1, Hb2, !to_byte_of_byte.
Qed.

Lemma encode_no_newline (src : list Byte.byte) :
  filter (fun c => negb (base64.is_newline c)) (base64.encode src) = base64.encode src.
Proof.
  assert (forall n src, length src <= n ->
            Forall (fun c => base64.is_newline c = false) (base64.encode src)) as Hind.
  { clear src. induction n as [|n IH]; intros src Hlen.
    - destruct src; [constructor | simpl in Hlen; lia].
    - destruct src as [|b0 [|b1 [|b2 rest]]]; [constructor| | |].
      + pose proof (of_byte_lt b0) as H0.
        destruct (quantum_bytes (base64.of_byte b0) 0 0 H0) as (Hv0 & Hv1 & _);
          [lia..|].
        change (0 / 16) with 0 in *. rewrite Nat.add_0_r in *.
        cbn [base64.encode]. repeat constructor; by apply encodeStd_not_newline.
      + pose proof (of_byte_lt b0) as H0. pose proof (of_byte_lt b1) as H1.
        destruct (quantum_bytes (base64.of_byte b0) (base64.of_byte b1) 0 H0 H1)
          as (Hv0 & Hv1 & Hv2 & _); [lia|].
        change (0 / 64) with 0 in *. rewrite Nat.add_0_r in *.
        cbn [base64.encode]. repeat constructor; by apply encodeStd_not_newline.
      + pose proof (of_byte_lt b0) as H0. pose proof (of_byte_lt b1) as H1.
        pose proof (of_byte_lt b2) as H2.
        destruct (quantum_bytes _ _ _ H0 H1 H2) as (Hv0 & Hv1 & Hv2 & Hv3 & _).
        cbn [base64.encode].
        repeat (constructor; [by apply encodeStd_not_newline|]).
        apply IH. simpl in Hlen. lia. }
  specialize (Hind (length src) src (le_n _)).
  induction Hind as [|c l Hc _ IH]; [done|].
  rewrite filter_cons_True; [by rewrite IH|]. by rewrite Hc.
Qed.

(** Decoding what [EncodeToString] encoded gives the bytes back, without
    error. *)
Lemma DecodeString_EncodeToString (src : list Byte.byte) :
  base64.DecodeString (base64.EncodeToString src) = (src, None).
Proof.
  unfold base64.DecodeString, base64.EncodeToString.
  by rewrite String.list_ascii_of_string_of_list_ascii, encode_no_newline, decode_encode.
Qed.

(** X11.  A credential that [GenerateEncodedPassword] returns without
    error is accepted by [DecodePassword], which gives back the hash that
    bcrypt generated, provided that hash has 60 bytes or more (the length
    of every bcrypt hash).  For the empty password nothing is generated:
    the error is [EmptyPasswordError]. *)
Theorem generated_password_decodes
    (GenerateFromPassword : list Byte.byte -> nat -> list Byte.byte * option error)
    (passwd : string) (hash : list Byte.byte) :
  passwd <> EmptyString ->
  GenerateFromPassword (String.list_byte_of_string passwd) MinCost = (hash, None) ->
  60 <= length hash ->
  (GenerateEncodedPassword GenerateFromPassword passwd).2 = None /\
  DecodePassword base64.DecodeString
    (GenerateEncodedPassword GenerateFromPassword passwd).1 = (hash, None) /\
  GenerateEncodedPassword GenerateFromPassword EmptyString
    = (EmptyString, Some EmptyPasswordError).
Proof.
  intros Hpasswd Hgen Hlen. unfold GenerateEncodedPassword.
  rewrite bool_decide_eq_false_2 by done. rewrite Hgen. simpl.
  split; [done|]. split; [|done].
  unfold DecodePassword. rewrite DecodeString_EncodeToString.
  rewrite bool_decide_eq_false_2.
  - destruct (Nat.ltb_spec (length hash) 60); [lia|done].
  - destruct hash as [|b0 [|b1 [|b2 rest]]]; simpl in Hlen; try lia.
    unfold base64.EncodeToString. cbn [base64.encode]. discriminate.
Qed.

(** ** The credentials of a configuration *)

Section ConfigCredentials.
Variable DecodeString : string -> list Byte.byte * option error.
Variable NewName : string -> string.
Variable IsChannel : string -> bool.

Lemma PasswordBytes_None (conf : Config.PassConfig) :
  Config.PasswordBytes DecodeString conf = None <->
  (DecodePassword DecodeString (Config.Password conf)).2 <> None.
Proof.
  unfold Config.PasswordBytes.
  destruct (DecodePassword _ _) as [bytes [e|]]; simpl; split; done.
Qed.

Lemma PasswordBytes_Some (conf : Config.PassConfig) (bytes : list Byte.byte) :
  Config.PasswordBytes DecodeString conf = Some bytes <->
  DecodePassword DecodeString (Config.Password conf) = (bytes, None).
Proof.
  unfold Config.PasswordBytes.
  destruct (DecodePassword _ _) as [bytes' [e|]]; simpl; split;
    try done; by intros [= ->].
Qed.

(** The loop of [Theaters] from any map built so far.  An entry is bad
    when its name is no channel or its credential does not decode. *)
Lemma Theaters_loop (conf : Config.t) (order : list string)
    (start : gmap string (list Byte.byte)) :
  let step := fun theaters s =>
    match theaters, Config.Theater conf !! s with
    | Some theaters, Some theaterConf =>
        let name := NewName s in
        if negb (IsChannel name) then None
        else
          match Config.PasswordBytes DecodeString theaterConf with
          | Some bytes => Some (<[name := bytes]> theaters)
          | None => None
          end
    | _, _ => theaters
    end in
  let bad := fun s c =>
    IsChannel (NewName s) = false \/ Config.PasswordBytes DecodeString c = None in
  (fold_left step order (Some start) = None <->
   exists s c, s ∈ order /\ Config.Theater conf !! s = Some c /\ bad s c) /\
  (forall theaters,
     fold_left step order (Some start) = Some theaters ->
     (forall key hash,
        theaters !! key = Some hash ->
        start !! key = Some hash \/
        exists s c, s ∈ order /\ Config.Theater conf !! s = Some c /\
                    NewName s = key /\
                    Config.PasswordBytes DecodeString c = Some hash) /\
     (forall key, is_Some (start !! key) -> is_Some (theaters !! key)) /\
     (forall s c, s ∈ order -> Config.Theater conf !! s = Some c ->
                  is_Some (theaters !! NewName s))).
Proof.
  intros step bad.
  assert (forall l, fold_left step l None = None) as Hnone.
  { induction l as [|s l IH]; [done|]. simpl. apply IH. }
  revert start. induction order as [|s order IH]; intros start.
  - simpl. split.
    + split; [done|]. by intros (? & ? & ?%elem_of_nil & _).
    + intros theaters [= <-]. repeat split; try done.
      * intros key hash Hkey. by left.
      * by intros ? ? ?%elem_of_nil.
  - cbn [fold_left].
    remember (step (Some start) s) as next eqn:Hnext. unfold step in Hnext.
    destruct (Config.Theater conf !! s) as [c|] eqn:Hs.
    + cbv zeta in Hnext.
      destruct (IsChannel (NewName s)) eqn:Hchan; simpl in Hnext.
      * destruct (Config.PasswordBytes DecodeString c) as [bytes|] eqn:Hbytes;
          subst next.
        -- destruct (IH (<[NewName s := bytes]> start)) as [Hfatal Hsome]. split.
           ++ rewrite Hfatal. split.
              ** intros (s' & c' & Hin & Hc' & Hbad).
                 exists s', c'. split; [by apply list_elem_of_further | done].
              ** intros (s' & c' & [->|Hin]%elem_of_cons & Hc' & Hbad).
                 --- rewrite Hs in Hc'. injection Hc' as <-.
                     destruct Hbad; congruence.
                 --- by exists s', c'.
           ++ intros theaters Hfold.
              destruct (Hsome _ Hfold) as (Hfrom & Hkeeps & Hall).
              split; [|split].
              ** intros key hash Hkey.
                 destruct (Hfrom _ _ Hkey) as [Hstart|(s' & c' & Hin & ? & ? & ?)].
                 --- rewrite lookup_insert in Hstart.
                     case_decide as Hk; [|by left].
                     injection Hstart as <-. right.
                     exists s, c. split; [apply list_elem_of_here | done].
                 --- right. exists s', c'.
                     split; [by apply list_elem_of_further | done].
              ** intros key Hkey. apply Hkeeps. rewrite lookup_insert.
                 by case_decide.
              ** intros s' c' [->|Hin]%elem_of_cons Hc'.
                 --- apply Hkeeps. by rewrite lookup_insert_eq.
                 --- by eapply Hall.
        -- rewrite Hnone. split.
           ++ split; [|done]. intros _. exists s, c.
              split; [apply list_elem_of_here|]. split; [done | by right].
           ++ done.
      * subst next. rewrite Hnone. split.
        -- split; [|done]. intros _. exists s, c.
           split; [apply list_elem_of_here|]. split; [done | by left].
        -- done.
    + subst next. destruct (IH start) as [Hfatal Hsome]. split.
      * rewrite Hfatal. split.
        -- intros (s' & c' & Hin & Hc' & Hbad).
           exists s', c'. split; [by apply list_elem_of_further | done].
        -- intros (s' & c' & [->|Hin]%elem_of_cons & Hc' & Hbad); [congruence|].
           by exists s', c'.
      * intros theaters Hfold.
        destruct (Hsome _ Hfold) as (Hfrom & Hkeeps & Hall).
        split; [|split; [done|]].
        -- intros key hash Hkey.
           destruct (Hfrom _ _ Hkey) as [?|(s' & c' & Hin & ?)]; [by left|].
           right. exists s', c'. split; [by apply list_elem_of_further | done].
        -- intros s' c' [->|Hin]%elem_of_cons Hc'; [congruence|]. by eapply Hall.
Qed.

Lemma keys_in_order {V} (m : gmap string V) (order : list string) (s : string) (v : V) :
  order ≡ₚ (map_to_list m).*1 -> m !! s = Some v -> s ∈ order.
Proof.
  intros -> Hs. apply list_elem_of_fmap. exists (s, v).
  split; [done|]. by apply elem_of_map_to_list.
Qed.

(** X12.  [Theaters] ends the process exactly when the configuration has
    a theater whose name is not a channel or whose credential
    [DecodePassword] rejects; otherwise the map it returns has an entry
    for the name of every theater, and each entry is the decoded
    credential of a theater of that name. *)
Theorem Theaters_fatal_or_decoded (order : list string) (conf : Config.t) :
  order ≡ₚ (map_to_list (Config.Theater conf)).*1 ->
  (Config.Theaters DecodeString NewName IsChannel order conf = None <->
   exists s c,
     Config.Theater conf !! s = Some c /\
     (IsChannel (NewName s) = false \/
      (DecodePassword DecodeString (Config.Password c)).2 <> None)) /\
  (forall theaters,
     Config.Theaters DecodeString NewName IsChannel order conf = Some theaters ->
     (forall s c, Config.Theater conf !! s = Some c ->
                  is_Some (theaters !! NewName s)) /\
     (forall key hash,
        theaters !! key = Some hash ->
        exists s c,
          Config.Theater conf !! s = Some c /\ NewName s = key /\
          DecodePassword DecodeString (Config.Password c) = (hash, None))).
Proof.
  intros Horder.
  destruct (Theaters_loop conf order ∅) as [Hfatal Hsome].
  unfold Config.Theaters. split.
  - rewrite Hfatal. split.
    + intros (s & c & _ & Hc & Hbad). exists s, c. split; [done|].
      by rewrite <- PasswordBytes_None.
    + intros (s & c & Hc & Hbad). exists s, c.
      split; [by eapply keys_in_order|]. split; [done|].
      by rewrite PasswordBytes_None.
  - intros theaters Hfold. destruct (Hsome _ Hfold) as (Hfrom & _ & Hall). split.
    + intros s c Hc. eapply Hall; [by eapply keys_in_order | done].
    + intros key hash Hkey.
      destruct (Hfrom _ _ Hkey) as [Hempty|(s & c & _ & Hc & Hname & Hbytes)].
      * by rewrite lookup_empty in Hempty.
      * exists s, c. by rewrite <- PasswordBytes_Some.
Qed.

End ConfigCredentials.

Section OperatorCredentials.
Variable DecodeString : string -> list Byte.byte * option error.
Variable NewName : string -> string.

(** X13.  [Operators] ends the process exactly when [DecodePassword]
    rejects the credential of some operator; otherwise the map it returns
    has an entry for the name of every operator, and each entry is the
    decoded credential of an operator of that name. *)
Theorem Operators_fatal_or_decoded (order : list string) (conf : Config.t) :
  order ≡ₚ (map_to_list (Config.Operator conf)).*1 ->
  (Config.Operators DecodeString NewName order conf = None <->
   exists name c,
     Config.Operator conf !! name = Some c /\
     (DecodePassword DecodeString (Config.Password c)).2 <> None) /\
  (forall operators,
     Config.Operators DecodeString NewName order conf = Some operators ->
     (forall name c, Config.Operator conf !! name = Some c ->
                     is_Some (operators !! NewName name)) /\
     (forall key hash,
        operators !! key = Some hash ->
        exists name c,
          Config.Operator conf !! name = Some c /\ NewName name = key /\
          DecodePassword DecodeString (Config.Password c) = (hash, None))).
Proof.
  intros Horder.
  pose (as_theaters :=
    {| Config.Server := Config.Server conf;
       Config.Operator := Config.Operator conf;
       Config.Theater := Config.Operator conf;
       Config.SSLListener := Config.SSLListener conf |}).
  destruct (Theaters_loop DecodeString NewName (fun _ => true)
              as_theaters order ∅) as [Hfatal Hsome].
  cbv zeta in Hfatal, Hsome.
  change (fold_left _ order (Some ∅))
    with (Config.Operators DecodeString NewName order conf) in Hfatal, Hsome.
  change (Config.Theater as_theaters) with (Config.Operator conf)
    in Hfatal, Hsome.
  split.
  - rewrite Hfatal. split.
    + intros (s & c & _ & Hc & [Hbad|Hbad]); [done|]. exists s, c.
      split; [done|]. by rewrite <- PasswordBytes_None.
    + intros (s & c & Hc & Hbad). exists s, c.
      split; [by eapply keys_in_order|]. split; [done|].
      right. by rewrite PasswordBytes_None.
  - intros operators Hfold. destruct (Hsome _ Hfold) as (Hfrom & _ & Hall).
    split.
    + intros s c Hc. eapply Hall; [by eapply keys_in_order | done].
    + intros key hash Hkey.
      destruct (Hfrom _ _ Hkey) as [Hempty|(s & c & _ & Hc & Hname & Hbytes)].
      * by rewrite lookup_empty in Hempty.
      * exists s, c. by rewrite <- PasswordBytes_Some.
Qed.

End OperatorCredentials.

(** ** Instances *)



Lemma Get_after_Add_Remove_witness :
  (ClientLookupSet.err
     (@ClientLookupSet.Add Sample.clients false 3 Sample.alice_and_bob) = None ->
   ClientLookupSet.Get
     (ClientLookupSet.state
        (@ClientLookupSet.Add Sample.clients false 3 Sample.alice_and_bob)) "CAROL"
   = if decide (@ToLower Sample.clients "CAROL"
                = @ToLower Sample.clients (@nick Sample.clients 3))
     then Some 3
     else ClientLookupSet.Get Sample.alice_and_bob "CAROL") /\
  (ClientLookupSet.err
     (@ClientLookupSet.Remove Sample.clients false 3 Sample.alice_and_bob) = None ->
   ClientLookupSet.Get
     (ClientLookupSet.state
        (@ClientLookupSet.Remove Sample.clients false 3 Sample.alice_and_bob)) "CAROL"
   = if decide (@ToLower Sample.clients "CAROL"
                = @ToLower Sample.clients (@nick Sample.clients 3))
     then None
     else ClientLookupSet.Get Sample.alice_and_bob "CAROL").
Proof.
  apply (@Get_after_Add_Remove Sample.clients Sample_Nick_nick
           false 3 Sample.alice_and_bob "CAROL").
Defined.

Lemma Add_Remove_round_trip_witness :
  @ClientLookupSet.Remove Sample.clients false 3
    (ClientLookupSet.state
       (@ClientLookupSet.Add Sample.clients false 3 Sample.alice_and_bob))
  = {| ClientLookupSet.state := Sample.alice_and_bob;
       ClientLookupSet.err := None;
       ClientLookupSet.logged := [] |}.
Proof.
  apply (@Add_Remove_round_trip Sample.clients Sample_Nick_nick
           false 3 Sample.alice_and_bob).
  - vm_compute. reflexivity.
  - vm_compute. reflexivity.
Defined.

Lemma refused_leaves_set_witness :
  ClientLookupSet.state
    (@ClientLookupSet.Add Sample.clients false 1 Sample.alice_and_bob)
  = Sample.alice_and_bob /\
  ClientLookupSet.err
    (@ClientLookupSet.Remove Sample.clients false 1 Sample.alice_and_bob)
  = Some ErrNicknameMismatch /\
  ClientLookupSet.err
    (@ClientLookupSet.Add Sample.clients false 4 Sample.alice_and_bob)
  = Some ErrNickMissing.
Proof.
  destruct (@refused_leaves_set Sample.clients Sample_Nick_nick
              false 1 Sample.alice_and_bob) as (Hadd & _ & Hmismatch & _).
  destruct (@refused_leaves_set Sample.clients Sample_Nick_nick
              false 4 Sample.alice_and_bob) as (_ & _ & _ & Hmissing).
  split; [|split].
  - apply Hadd. vm_compute. discriminate.
  - apply Hmismatch; [reflexivity | vm_compute; discriminate].
  - apply Hmissing. reflexivity.
Defined.


Lemma generated_password_decodes_witness :
  (GenerateEncodedPassword Sample.bcrypt_fixed "secret").2 = None /\
  DecodePassword base64.DecodeString
    (GenerateEncodedPassword Sample.bcrypt_fixed "secret").1
  = (Sample.hash_60, None) /\
  GenerateEncodedPassword Sample.bcrypt_fixed EmptyString
  = (EmptyString, Some EmptyPasswordError).
Proof.
  apply (generated_password_decodes Sample.bcrypt_fixed "secret" Sample.hash_60).
  - discriminate.
  - reflexivity.
  - vm_compute. lia.
Defined.

Lemma Theaters_fatal_or_decoded_witness :
  (Config.Theaters base64.DecodeString ClientDB.nocase Sample.is_channel
     ["#Stage"] Sample.with_credentials = None <->
   exists s c,
     Config.Theater Sample.with_credentials !! s = Some c /\
     (Sample.is_channel (ClientDB.nocase s) = false \/
      (DecodePassword base64.DecodeString (Config.Password c)).2 <> None)) /\
  (forall theaters,
     Config.Theaters base64.DecodeString ClientDB.nocase Sample.is_channel
       ["#Stage"] Sample.with_credentials = Some theaters ->
     (forall s c, Config.Theater Sample.with_credentials !! s = Some c ->
                  is_Some (theaters !! ClientDB.nocase s)) /\
     (forall key hash,
        theaters !! key = Some hash ->
        exists s c,
          Config.Theater Sample.with_credentials !! s = Some c /\
          ClientDB.nocase s = key /\
          DecodePassword base64.DecodeString (Config.Password c) = (hash, None))).
Proof.
  apply (Theaters_fatal_or_decoded base64.DecodeString ClientDB.nocase
           Sample.is_channel ["#Stage"] Sample.with_credentials).
  simpl. by rewrite map_to_list_singleton.
Defined.

Lemma Operators_fatal_or_decoded_witness :
  (Config.Operators base64.DecodeString ClientDB.nocase
     ["Root"] Sample.with_credentials = None <->
   exists name c,
     Config.Operator Sample.with_credentials !! name = Some c /\
     (DecodePassword base64.DecodeString (Config.Password c)).2 <> None) /\
  (forall operators,
     Config.Operators base64.DecodeString ClientDB.nocase
       ["Root"] Sample.with_credentials = Some operators ->
     (forall name c, Config.Operator Sample.with_credentials !! name = Some c ->
                     is_Some (operators !! ClientDB.nocase name)) /\
     (forall key hash,
        operators !! key = Some hash ->
        exists name c,
          Config.Operator Sample.with_credentials !! name = Some c /\
          ClientDB.nocase name = key /\
          DecodePassword base64.DecodeString (Config.Password c) = (hash, None))).
Proof.
  apply (Operators_fatal_or_decoded base64.DecodeString ClientDB.nocase
           ["Root"] Sample.with_credentials).
  simpl. by rewrite map_to_list_singleton.
Defined.
